(** * Maze generation and player movement of [src/main.cpp]

    A shallow embedding of the classes [Cell], [Maze] and [Player].

    - C++ [int] values are integers of [Z]: the grid coordinates the program
      computes stay within two steps of a grid index, far from the limits of
      a machine word, and signed overflow, which C++ leaves undefined, is not
      modelled.
    - An array access [a[i]] is checked: outside the allocated range the
      embedding returns [Err OutOfBounds] where the C++ program has
      undefined behaviour.
    - The recursion of [generateMazeRecursive] is driven by a fuel argument;
      [generateMaze] supplies enough of it (see [generateMaze_runs]).
    - raylib's [GetRandomValue] reads a stream of raw values, and
      [GetTime] is an argument of [Player.move]. *)

From stdpp Require Import base list.
From Stdlib Require Import ZArith Lia QArith.

Local Open Scope Z_scope.

(** ** Results of fallible steps *)

Inductive error : Set :=
| OutOfBounds
| BadArrayNewLength
| OutOfFuel.

Inductive result (A : Type) : Type :=
| Ok (a : A)
| Err (e : error).

Arguments Ok {A} a.
Arguments Err {A} e.

Definition bind {A B : Type} (m : result A) (k : A -> result B) : result B :=
  match m with
  | Ok a => k a
  | Err e => Err e
  end.

Notation "'let*' x ':=' m 'in' k" := (bind m (fun x => k))
  (at level 10, x pattern, m at level 100, k at level 200).

(** ** Arrays *)

(** [a[i]] as a read. *)
Definition index {A : Type} (a : list A) (i : Z) : result A :=
  if i <? 0 then Err OutOfBounds
  else match a !! Z.to_nat i with
       | Some v => Ok v
       | None => Err OutOfBounds
       end.

(** [a[i] = v]. *)
Definition store {A : Type} (a : list A) (i : Z) (v : A) : result (list A) :=
  if (i <? 0) || (Z.of_nat (length a) <=? i) then Err OutOfBounds
  else Ok (<[Z.to_nat i := v]> a).

(** [new A[n]], every element built by the default constructor. *)
Definition new_array {A : Type} (n : Z) (init : A) : result (list A) :=
  if n <? 0 then Err BadArrayNewLength
  else Ok (replicate (Z.to_nat n) init).

(** ** The random source *)

(** The C library's [rand()] behind raylib: a stream of raw values and the
    position of the next one. *)
Record Rng : Type := mkRng { source : nat -> Z; position : nat }.

Definition rand (r : Rng) : Z * Rng :=
  (source r (position r), mkRng (source r) (S (position r))).

(** raylib's [GetRandomValue(min, max)]: a value of the closed range. *)
Definition GetRandomValue (min max : Z) (r : Rng) : Z * Rng :=
  let (lo, hi) := if max <? min then (max, min) else (min, max) in
  let (raw, r') := rand r in
  (raw mod (Z.abs (hi - lo) + 1) + lo, r').

(** A scripted source: the draws are given in advance, whatever the range
    asked for; an exhausted script repeats the lower bound. *)
Definition scripted (min max : Z) (js : list Z) : Z * list Z :=
  match js with
  | [] => (min, [])
  | j :: rest => (j, rest)
  end.

(** ** Drawing calls *)

(** What [draw] and [main] need of [float]: the conversions from and to
    [int], division, and the constant [0.0f]. *)
Class Floats (F : Type) : Type := {
  of_int : Z -> F;
  to_int : F -> Z;
  fdiv : F -> F -> F;
  fzero : F
}.

Module Raylib.

(** [struct Color { unsigned char r, g, b, a; }] *)
Record Color : Set := mkColor { r : Z; g : Z; b : Z; a : Z }.

Definition WHITE : Color := mkColor 255 255 255 255.
Definition LIGHTGRAY : Color := mkColor 200 200 200 255.
Definition DARKGRAY : Color := mkColor 80 80 80 255.

(** [struct Texture { unsigned int id; int width, height, mipmaps, format; }] *)
Record Texture2D : Set := mkTexture {
  id : Z;
  width : Z;
  height : Z;
  mipmaps : Z;
  format : Z
}.

(** The two drawing functions the classes call, as entries of a log. *)
Inductive call (F : Type) : Type :=
| DrawRectangle (posX posY width height : Z) (color : Color)
| DrawTextureEx (texture : Texture2D) (position : F * F) (rotation scale : F) (tint : Color).

Arguments DrawRectangle {F} posX posY width height color.
Arguments DrawTextureEx {F} texture position rotation scale tint.

(** The keys [main] asks about. *)
Inductive KeyboardKey : Set := KEY_UP | KEY_DOWN | KEY_LEFT | KEY_RIGHT | KEY_ENTER.

End Raylib.

(** The body of a [for] loop run on each value in turn; the log of the loop
    is the logs of its iterations in order. *)
Fixpoint for_each {A B : Type} (body : A -> result (list B)) (l : list A)
    : result (list B) :=
  match l with
  | [] => Ok []
  | a :: rest =>
      let* first := body a in
      let* others := for_each body rest in
      Ok (first ++ others)
  end.

(** ** Cells *)

Module Cell.

Record t : Set := mk { isWall : bool; visited : bool }.

(** [Cell() : isWall(true), visited(false)] *)
Definition default : t := mk true false.

Definition set_visited (v : bool) (c : t) : t := mk (isWall c) v.
Definition set_isWall (w : bool) (c : t) : t := mk w (visited c).

End Cell.

Abbreviation Grid := (list (list Cell.t)).
Abbreviation Dir := (Z * Z)%type.

(** ** The maze *)

Module Maze.

(** [mazeColor] and [exitTexture] only reach the drawing code. *)
Record t : Type := mk {
  width : Z;
  height : Z;
  cellSize : Z;
  grid : Grid;
  exitX : Z;
  exitY : Z
}.

(** [grid[y][x]] *)
Definition cell (g : Grid) (x y : Z) : result Cell.t :=
  let* row := index g y in
  index row x.

(** [grid[y][x].field = v], through the row pointer [grid[y]]. *)
Definition update (f : Cell.t -> Cell.t) (g : Grid) (x y : Z) : result Grid :=
  let* row := index g y in
  let* c := index row x in
  let* row' := store row x (f c) in
  store g y row'.

Definition isInsideGrid (width height x y : Z) : bool :=
  (0 <=? x) && (x <? width) && (0 <=? y) && (y <? height).

Definition directions : list Dir := [(0, -1); (0, 1); (-1, 0); (1, 0)].

(** The body of the shuffling loop: [temp = d[i]; d[i] = d[j]; d[j] = temp]. *)
Definition swap (i j : Z) (d : list Dir) : result (list Dir) :=
  let* temp := index d i in
  let* dj := index d j in
  let* d1 := store d i dj in
  store d1 j temp.

(** [for (; i < 4; i++) { j = GetRandomValue(i, 3); swap }], with [n]
    iterations left; [draw] is the random source. *)
Fixpoint shuffle {S : Type} (draw : Z -> Z -> S -> Z * S)
    (n : nat) (i : Z) (d : list Dir) (s : S) : result (list Dir * S) :=
  match n with
  | O => Ok (d, s)
  | S n' =>
      let (j, s') := draw i 3 s in
      let* d' := swap i j d in
      shuffle draw n' (i + 1) d' s'
  end.

Section Generation.

Variables width height : Z.

(** The second loop of [generateMazeRecursive]; [recurse] is the
    recursive call. *)
Fixpoint explore (recurse : Z -> Z -> Grid * Rng -> result (Grid * Rng))
    (x y : Z) (dirs : list Dir) (st : Grid * Rng) : result (Grid * Rng) :=
  match dirs with
  | [] => Ok st
  | (dx, dy) :: rest =>
      let nx := x + dx * 2 in
      let ny := y + dy * 2 in
      if isInsideGrid width height nx ny then
        let* c := cell (fst st) nx ny in
        if negb (Cell.visited c) then
          let* g1 := update (Cell.set_isWall false) (fst st) (x + dx) (y + dy) in
          let* st' := recurse nx ny (g1, snd st) in
          explore recurse x y rest st'
        else explore recurse x y rest st
      else explore recurse x y rest st
  end.

Fixpoint generateMazeRecursive (fuel : nat) (x y : Z) (st : Grid * Rng)
    : result (Grid * Rng) :=
  match fuel with
  | O => Err OutOfFuel
  | S fuel' =>
      let* g1 := update (Cell.set_visited true) (fst st) x y in
      let* g2 := update (Cell.set_isWall false) g1 x y in
      let* (dirs, r) := shuffle GetRandomValue 4 0 directions (snd st) in
      explore (generateMazeRecursive fuel') x y dirs (g2, r)
  end.

Definition generateMaze (st : Grid * Rng) : result (Grid * Rng) :=
  generateMazeRecursive (S (Z.to_nat (width * height))) 1 1 st.

End Generation.

(** [grid = new Cell*[height]; for (i < height) grid[i] = new Cell[width];] *)
Definition allocate (w h : Z) : result Grid :=
  let* rows := new_array h ([] : list Cell.t) in
  if 0 <? h then
    let* row := new_array w Cell.default in
    Ok (replicate (Z.to_nat h) row)
  else Ok rows.

(** The constructor [Maze(w, h, size, color, exitTex)]. *)
Definition new (w h size : Z) (r : Rng) : result (t * Rng) :=
  let* g := allocate w h in
  let* (g', r') := generateMaze w h (g, r) in
  let ex := w - 2 in
  let ey := h - 2 in
  let* g'' := update (Cell.set_isWall false) g' ex ey in
  Ok (mk w h size g'' ex ey, r').

Definition isWall (m : t) (x y : Z) : result bool :=
  if negb (isInsideGrid (width m) (height m) x y) then Ok true
  else let* c := cell (grid m) x y in Ok (Cell.isWall c).

Definition isExit (m : t) (x y : Z) : bool :=
  (x =? exitX m) && (y =? exitY m).

Section Drawing.

Context {F : Type} `{Floats F}.

(** [draw()]; the fields [mazeColor] and [exitTexture] are arguments here.
    The two loops run [y] over [0 .. height-1] and [x] over [0 .. width-1]. *)
Definition draw (mazeColor : Raylib.Color) (exitTexture : Raylib.Texture2D) (m : t)
    : result (list (Raylib.call F)) :=
  let* rectangles :=
    for_each (fun y =>
      for_each (fun x =>
        let* c := cell (grid m) x y in
        Ok (if Cell.isWall c
            then [Raylib.DrawRectangle (x * cellSize m) (y * cellSize m)
                                       (cellSize m) (cellSize m) mazeColor]
            else []))
        (seqZ 0 (width m)))
      (seqZ 0 (height m)) in
  let exitPosition := (of_int (exitX m * cellSize m), of_int (exitY m * cellSize m)) in
  Ok (rectangles ++
      [Raylib.DrawTextureEx exitTexture exitPosition fzero
         (fdiv (of_int (cellSize m)) (of_int (Raylib.width exitTexture))) Raylib.WHITE]).

End Drawing.

End Maze.

(** ** The player *)

(** Time stamps: what [Player::move] needs of [float]. [tlt_tge] holds of
    IEEE comparison, also on NaN. *)
Class Clock (T : Type) : Type := {
  tsub : T -> T -> T;
  tge : T -> T -> bool;
  tlt : T -> T -> bool;
  tlt_tge : forall a b, tlt a b = true -> tge a b = false
}.

Module Player.

Section WithClock.

Context {T : Type} `{Clock T}.

Record t : Type := mk {
  x : Z;
  y : Z;
  cellSize : Z;
  moveCooldown : T;
  lastMoveTime : T
}.

(** [Player(startX, startY, size)]; [cooldown] is [0.2f] and [zero] is
    [0.0f]. *)
Definition new (startX startY size : Z) (cooldown zero : T) : t :=
  mk startX startY size cooldown zero.

(** [move(dx, dy, maze)]; [currentTime] is what [GetTime()] returns. *)
Definition move (currentTime : T) (dx dy : Z) (maze : Maze.t) (p : t) : result t :=
  if tge (tsub currentTime (lastMoveTime p)) (moveCooldown p) then
    let newX := x p + dx in
    let newY := y p + dy in
    let* wall := Maze.isWall maze newX newY in
    let p1 := if negb wall then mk newX newY (cellSize p) (moveCooldown p) (lastMoveTime p)
              else p in
    Ok (mk (x p1) (y p1) (cellSize p1) (moveCooldown p1) currentTime)
  else Ok p.

Definition getX (p : t) : Z := x p.
Definition getY (p : t) : Z := y p.

(** The calls of [move] the game loop makes, in order: the time of each
    call and the direction asked for. *)
Fixpoint moves (attempts : list (T * Z * Z)) (maze : Maze.t) (p : t) : result t :=
  match attempts with
  | [] => Ok p
  | (currentTime, dx, dy) :: rest =>
      let* p' := move currentTime dx dy maze p in
      moves rest maze p'
  end.

End WithClock.

Arguments t T : clear implicits.

Section Drawing.

Context {T F : Type} `{Floats F}.

(** [draw(character)] *)
Definition draw (character : Raylib.Texture2D) (p : t T) : list (Raylib.call F) :=
  [Raylib.DrawTextureEx character
     (of_int (x p * cellSize p), of_int (y p * cellSize p)) fzero
     (fdiv (of_int (cellSize p)) (of_int (Raylib.width character))) Raylib.WHITE].

End Drawing.

End Player.

(** ** The menus *)

(** [a % b] of C++: the remainder of the division that truncates; dividing
    by zero is undefined and gives [None]. *)
Definition int_rem (a b : Z) : option Z :=
  if b =? 0 then None else Some (Z.rem a b).

(** [choix(selectedButton, nmbrButton)]; [keyDown] and [keyUp] are what
    [IsKeyPressed(KEY_DOWN)] and [IsKeyPressed(KEY_UP)] return. *)
Definition choix (keyDown keyUp : bool) (selectedButton nmbrButton : Z) : option Z :=
  let step1 := if keyDown then int_rem (selectedButton + 1) nmbrButton
               else Some selectedButton in
  match step1 with
  | Some selected =>
      if keyUp then int_rem (selected - 1 + nmbrButton) nmbrButton else Some selected
  | None => None
  end.

(** [choix2(selectedCharacter, nmbrButton)]; [keyRight] and [keyLeft] are
    what [IsKeyPressed(KEY_RIGHT)] and [IsKeyPressed(KEY_LEFT)] return. *)
Definition choix2 (keyRight keyLeft : bool) (selectedCharacter nmbrButton : Z) : option Z :=
  let step1 := if keyRight then int_rem (selectedCharacter + 1) nmbrButton
               else Some selectedCharacter in
  match step1 with
  | Some selected =>
      if keyLeft then int_rem (selected - 1 + nmbrButton) nmbrButton else Some selected
  | None => None
  end.

(** A key pressed in each of [n] successive frames. *)
Fixpoint presses (press : Z -> option Z) (n : nat) (selected : Z) : option Z :=
  match n with
  | O => Some selected
  | S n' =>
      match press selected with
      | Some selected' => presses press n' selected'
      | None => None
      end
  end.

(** ** The game loop *)

Module Main.

(** A pointer: null, to a living object, or to an object that [delete] has
    destroyed. *)
Inductive pointer (A : Type) : Type :=
| nullptr
| object (a : A)
| deleted.

Arguments nullptr {A}.
Arguments object {A} a.
Arguments deleted {A}.

(** Where C++ leaves the behaviour undefined or ends the program. *)
Inductive fault : Set :=
| NullDereference
| UseAfterDelete
| DoubleDelete
| DivisionByZero
| Failed (e : error).

Inductive step (A : Type) : Type :=
| Done (a : A)
| Fault (f : fault).

Arguments Done {A} a.
Arguments Fault {A} f.

Definition and_then {A B : Type} (m : step A) (k : A -> step B) : step B :=
  match m with
  | Done a => k a
  | Fault f => Fault f
  end.

Notation "'do' x '<-' m ';' k" := (and_then m (fun x => k))
  (at level 10, x pattern, m at level 100, k at level 200).

(** [*p] and [p->...] *)
Definition deref {A : Type} (p : pointer A) : step A :=
  match p with
  | object a => Done a
  | nullptr => Fault NullDereference
  | deleted => Fault UseAfterDelete
  end.

(** [delete p]; the pointer keeps its value and now dangles. *)
Definition delete {A : Type} (p : pointer A) : step (pointer A) :=
  match p with
  | object _ => Done deleted
  | nullptr => Done nullptr
  | deleted => Fault DoubleDelete
  end.

(** [if (p) delete p;] *)
Definition delete_if_set {A : Type} (p : pointer A) : step (pointer A) :=
  match p with
  | nullptr => Done nullptr
  | _ => delete p
  end.

Definition of_result {A : Type} (m : result A) : step A :=
  match m with
  | Ok a => Done a
  | Err e => Fault (Failed e)
  end.

Definition of_option {A : Type} (m : option A) : step A :=
  match m with
  | Some a => Done a
  | None => Fault DivisionByZero
  end.

(** A [Maze] object with the two fields that [Maze.t] leaves to [draw]. *)
Record MazeObject : Type := mkMaze {
  fields : Maze.t;
  mazeColor : Raylib.Color;
  exitTexture : Raylib.Texture2D
}.

(** The textures [main] loads and then only passes on. *)
Record Textures : Set := mkTextures {
  mouseTexture : Raylib.Texture2D;
  manTexture : Raylib.Texture2D;
  cTexture : Raylib.Texture2D;
  exitJnnTexture : Raylib.Texture2D;
  exitFmTexture : Raylib.Texture2D;
  exitScTexture : Raylib.Texture2D
}.

Section WithFloats.

Context {T : Type} `{Clock T} {F : Type} `{Floats F}.

(** What raylib answers during one pass of the loop; [GetTime k] is the
    time that the call of [move] made for key [k] reads. *)
Record Frame : Type := mkFrame {
  WindowShouldClose : bool;
  IsKeyPressed : Raylib.KeyboardKey -> bool;
  IsKeyDown : Raylib.KeyboardKey -> bool;
  GetTime : Raylib.KeyboardKey -> T
}.

(** The variables of [main] that change in the loop. *)
Record Locals : Type := mkLocals {
  selectedButton : Z;
  selectedCharacter : Z;
  showCharacterSelection : bool;
  difficulty : Z;
  gameStarted : bool;
  maze : pointer MazeObject;
  player : pointer (Player.t T)
}.

Definition initial : Locals := mkLocals 0 0 false 1 false nullptr nullptr.

Definition set_player (p : pointer (Player.t T)) (s : Locals) : Locals :=
  mkLocals (selectedButton s) (selectedCharacter s) (showCharacterSelection s)
           (difficulty s) (gameStarted s) (maze s) p.

(** What the loop body does next: go round again, or [break]. *)
Inductive control : Set := Continue | Break.

(** The constants of a run: the screen size as [GetScreenWidth()] and
    [GetScreenHeight()] return it, the textures, and the [0.2f] and [0.0f]
    of the [Player] constructor. *)
Variables (GetScreenWidth GetScreenHeight : Z) (textures : Textures) (cooldown zero : T).

Definition screenWidth : F := of_int GetScreenWidth.
Definition screenHeight : F := of_int GetScreenHeight.

(** The branch [if (!gameStarted)] up to its drawing, which reads the
    variables and changes none. *)
Definition menu (i : Frame) (s : Locals) (r : Rng) : step (control * Locals * Rng) :=
  if negb (showCharacterSelection s) then
    do sel <- of_option (choix (IsKeyPressed i Raylib.KEY_DOWN) (IsKeyPressed i Raylib.KEY_UP)
                               (selectedButton s) 4);
    let s1 := mkLocals sel (selectedCharacter s) (showCharacterSelection s)
                       (difficulty s) (gameStarted s) (maze s) (player s) in
    if IsKeyPressed i Raylib.KEY_ENTER then
      if sel =? 3 then Done (Break, s1, r)
      else Done (Continue,
                 mkLocals sel (selectedCharacter s) true (sel + 1)
                          (gameStarted s) (maze s) (player s), r)
    else Done (Continue, s1, r)
  else
    do sel <- of_option (choix2 (IsKeyPressed i Raylib.KEY_RIGHT)
                                (IsKeyPressed i Raylib.KEY_LEFT)
                                (selectedCharacter s) 3);
    let s1 := mkLocals (selectedButton s) sel (showCharacterSelection s)
                       (difficulty s) (gameStarted s) (maze s) (player s) in
    if IsKeyPressed i Raylib.KEY_ENTER then
      let cellSize := if difficulty s =? 1 then 50 else if difficulty s =? 2 then 40 else 30 in
      let mazeWidth := to_int (fdiv screenWidth (of_int cellSize)) in
      let mazeHeight := to_int (fdiv screenHeight (of_int cellSize)) in
      let color := if Z.rem (difficulty s) 2 =? 0 then Raylib.DARKGRAY else Raylib.LIGHTGRAY in
      let exitTex := if sel =? 0 then exitJnnTexture textures
                     else if sel =? 1 then exitFmTexture textures
                     else exitScTexture textures in
      do (m, r') <- of_result (Maze.new mazeWidth mazeHeight cellSize r);
      Done (Continue,
            mkLocals (selectedButton s) sel (showCharacterSelection s) (difficulty s) true
                     (object (mkMaze m color exitTex))
                     (object (Player.new 1 1 cellSize cooldown zero)), r')
    else Done (Continue, s1, r).

(** [if (IsKeyDown(key)) player->move(dx, dy, *maze);] *)
Definition move_on (i : Frame) (key : Raylib.KeyboardKey) (dx dy : Z) (s : Locals)
    : step Locals :=
  if IsKeyDown i key then
    do p <- deref (player s);
    do m <- deref (maze s);
    do p' <- of_result (Player.move (GetTime i key) dx dy (fields m) p);
    Done (set_player (object p') s)
  else Done s.

(** The branch of a running game: the four moves, the test for the exit
    with the two [delete], and the two [draw] calls. *)
Definition game (i : Frame) (s : Locals) (r : Rng) : step (control * Locals * Rng) :=
  do s1 <- move_on i Raylib.KEY_UP 0 (-1) s;
  do s2 <- move_on i Raylib.KEY_DOWN 0 1 s1;
  do s3 <- move_on i Raylib.KEY_LEFT (-1) 0 s2;
  do s4 <- move_on i Raylib.KEY_RIGHT 1 0 s3;
  do m <- deref (maze s4);
  do p <- deref (player s4);
  do s5 <- (if Maze.isExit (fields m) (Player.getX p) (Player.getY p) then
              do mz <- delete (maze s4);
              do pl <- delete (player s4);
              Done (mkLocals (selectedButton s4) (selectedCharacter s4) false
                             (difficulty s4) false mz pl)
            else Done s4);
  do m' <- deref (maze s5);
  do _ <- of_result (Maze.draw (F := F) (mazeColor m') (exitTexture m') (fields m'));
  do p' <- deref (player s5);
  let playerTexture := if selectedCharacter s5 =? 0 then mouseTexture textures
                       else if selectedCharacter s5 =? 1 then manTexture textures
                       else cTexture textures in
  let _ := Player.draw (F := F) playerTexture p' in
  Done (Continue, s5, r).

(** The body of the [while] loop. *)
Definition frame (i : Frame) (s : Locals) (r : Rng) : step (control * Locals * Rng) :=
  if negb (gameStarted s) then menu i s r else game i s r.

(** The loop over the frames that raylib delivers. [Break] in the result
    says that the loop has been left, by [break] or because the window is to
    close; [Continue] that the frames have run out first. *)
Fixpoint loop (frames : list Frame) (s : Locals) (r : Rng) : step (control * Locals * Rng) :=
  match frames with
  | [] => Done (Continue, s, r)
  | i :: rest =>
      if WindowShouldClose i then Done (Break, s, r)
      else
        do (c, s', r') <- frame i s r;
        match c with
        | Break => Done (Break, s', r')
        | Continue => loop rest s' r'
        end
  end.

(** [if (maze) delete maze; if (player) delete player;] *)
Definition cleanup (s : Locals) : step Locals :=
  do mz <- delete_if_set (maze s);
  do pl <- delete_if_set (player s);
  Done (mkLocals (selectedButton s) (selectedCharacter s) (showCharacterSelection s)
                 (difficulty s) (gameStarted s) mz pl).

(** [main], for a run in which the loop is left. *)
Definition main (frames : list Frame) (r : Rng) : step (control * Locals * Rng) :=
  do (c, s, r') <- loop frames initial r;
  match c with
  | Break => do s' <- cleanup s; Done (Break, s', r')
  | Continue => Done (Continue, s, r')
  end.

(** The calls of [move] that one frame makes. *)
Definition frame_moves (i : Frame) : list (T * Z * Z) :=
  (if IsKeyDown i Raylib.KEY_UP then [(GetTime i Raylib.KEY_UP, 0, -1)] else []) ++
  (if IsKeyDown i Raylib.KEY_DOWN then [(GetTime i Raylib.KEY_DOWN, 0, 1)] else []) ++
  (if IsKeyDown i Raylib.KEY_LEFT then [(GetTime i Raylib.KEY_LEFT, -1, 0)] else []) ++
  (if IsKeyDown i Raylib.KEY_RIGHT then [(GetTime i Raylib.KEY_RIGHT, 1, 0)] else []).

End WithFloats.

Arguments Frame T : clear implicits.
Arguments Locals T : clear implicits.

End Main.

(** * Specification vocabulary *)

(** ** Reading a grid *)

Abbreviation Pos := (Z * Z)%type.

(** The wall flag at a coordinate; what is not stored counts as a wall. *)
Definition wallAt (g : Grid) (c : Pos) : bool :=
  match Maze.cell g (fst c) (snd c) with
  | Ok v => Cell.isWall v
  | Err _ => true
  end.

Definition visitedAt (g : Grid) (c : Pos) : bool :=
  match Maze.cell g (fst c) (snd c) with
  | Ok v => Cell.visited v
  | Err _ => false
  end.

Definition passage (g : Grid) (c : Pos) : Prop := wallAt g c = false.

Definition inside (w h : Z) (c : Pos) : Prop :=
  0 <= fst c < w /\ 0 <= snd c < h.

(** [h] rows of [w] cells each. *)
Definition shape (w h : Z) (g : Grid) : Prop :=
  Z.of_nat (length g) = h /\ Forall (fun row => Z.of_nat (length row) = w) g.

(** The number of stored cells not yet visited. *)
Definition unvisited (g : Grid) : nat :=
  sum_list_with (sum_list_with (fun c => if Cell.visited c then 0%nat else 1%nat)) g.

(** ** Paths between cells *)

(** 4-directional adjacency: one unit step. *)
Definition adjacent (a b : Pos) : Prop :=
  Z.abs (fst a - fst b) + Z.abs (snd a - snd b) = 1.

(** [walk P b a l]: [l] lists the cells of a path from [a] to [b], which
    all satisfy [P], each adjacent to the next. *)
Inductive walk (P : Pos -> Prop) (b : Pos) : Pos -> list Pos -> Prop :=
| walk_end : P b -> walk P b b [b]
| walk_step a a' l : P a -> adjacent a a' -> walk P b a' l -> walk P b a (a :: l).

(** A passage path of [g] from [a] to [b] that visits no cell twice. *)
Definition route (g : Grid) (a b : Pos) (l : list Pos) : Prop :=
  walk (passage g) b a l /\ NoDup l.

(** Every cell of [P] has exactly one simple path to [root] inside [P]. *)
Definition tree_to (root : Pos) (P : Pos -> Prop) : Prop :=
  forall c, P c -> exists l, (walk P root c l /\ NoDup l) /\
                             forall l', walk P root c l' /\ NoDup l' -> l' = l.

(** A cycle inside [P]: three or more distinct cells, each adjacent to the
    next and the last one to the first. *)
Definition cycle (P : Pos -> Prop) (l : list Pos) : Prop :=
  (3 <= length l)%nat /\ NoDup l /\ Forall P l /\
  (forall i a b, l !! i = Some a -> l !! S i = Some b -> adjacent a b) /\
  (forall a b, l !! 0%nat = Some a -> l !! (length l - 1)%nat = Some b -> adjacent b a).

Definition acyclic (P : Pos -> Prop) : Prop := forall l, ~ cycle P l.

Definition start : Pos := (1, 1).

(** The cells the generator enters: odd column and odd row. *)
Definition sublattice (c : Pos) : Prop := Z.Odd (fst c) /\ Z.Odd (snd c).

Definition unit_dir (d : Dir) : Prop := d ∈ Maze.directions.

Definition step (c : Pos) (d : Dir) (k : Z) : Pos := (fst c + fst d * k, snd c + snd d * k).

(** ** The generator's invariant *)

Record Inv (w h : Z) (g : Grid) : Prop := {
  inv_shape : shape w h g;
  inv_start : passage g start;
  inv_parity : forall c, passage g c -> Z.Odd (fst c) \/ Z.Odd (snd c);
  inv_visited : forall c, visitedAt g c = true <-> passage g c /\ sublattice c;
  inv_joint : forall c n, passage g c -> adjacent c n -> sublattice n -> visitedAt g n = true;
  inv_tree : tree_to start (passage g);
  inv_acyclic : acyclic (passage g)
}.

(** [c] has been left by the generator: each two-step neighbour inside the
    grid is visited. *)
Definition closed (w h : Z) (g : Grid) (c : Pos) : Prop :=
  forall d, unit_dir d -> inside w h (step c d 2) -> visitedAt g (step c d 2) = true.

(** The grid as the constructor allocates it: [h] rows of [w] default cells. *)
Definition fresh (w h : Z) : Grid :=
  replicate (Z.to_nat h) (replicate (Z.to_nat w) Cell.default).

(** A maze the constructor has returned. *)
Definition constructed (m : Maze.t) : Prop :=
  exists w h size r r', Maze.new w h size r = Ok (m, r').

(** What a run of the generator from grid [g] to grid [g'] achieves. *)
Definition gen_post (w h : Z) (g g' : Grid) : Prop :=
  Inv w h g' /\
  (forall c, visitedAt g c = true -> visitedAt g' c = true) /\
  (unvisited g' <= unvisited g)%nat /\
  (forall c, visitedAt g' c = true -> visitedAt g c = false -> closed w h g' c).

(** The contract of [generateMazeRecursive] with [fuel] units of fuel: called
    on an unvisited cell whose marking restores the invariant, it returns. *)
Definition gen_ok (w h : Z) (recurse : Z -> Z -> Grid * Rng -> result (Grid * Rng))
    (fuel : nat) : Prop :=
  forall x y g r,
    inside w h (x, y) -> visitedAt g (x, y) = false -> shape w h g ->
    (forall g1 g2, Maze.update (Cell.set_visited true) g x y = Ok g1 ->
                   Maze.update (Cell.set_isWall false) g1 x y = Ok g2 -> Inv w h g2) ->
    (unvisited g <= fuel)%nat ->
    exists g' r', recurse x y (g, r) = Ok (g', r') /\
                  gen_post w h g g' /\ visitedAt g' (x, y) = true.

(** ** The shuffle under uniform draws *)

(** The values [GetRandomValue(i, 3)] can return. *)
Definition draw_range (i : Z) : list Z := seqZ i (4 - i).

(** Every sequence of draws the four iterations can see. *)
Definition scripts : list (list Z) :=
  j0 ← draw_range 0; j1 ← draw_range 1; j2 ← draw_range 2; j3 ← draw_range 3;
  [[j0; j1; j2; j3]].

(** Uniform draws: iteration [i] picks each value of its range with the
    same probability, [1 / (4 - i)]. *)
Definition draw_probability (i : Z) : Q := 1 # Pos.of_nat (length (draw_range i)).

(** Independent draws: the probability of one sequence of four. *)
Definition script_probability : Q :=
  draw_probability 0 * draw_probability 1 * draw_probability 2 * draw_probability 3.

Definition shuffled (js : list Z) : result (list Dir * list Z) :=
  Maze.shuffle scripted 4 0 Maze.directions js.

Definition produces (js : list Z) (p : list Dir) : bool :=
  match shuffled js with
  | Ok (d, _) => bool_decide (d = p)
  | Err _ => false
  end.

(** The probability that the shuffle ends with the order [p]. *)
Definition shuffle_probability (p : list Dir) : Q :=
  foldr Qplus 0%Q (map (fun js => if produces js p then script_probability else 0%Q) scripts).

(** ** Inputs of the examples *)

Definition demo_rng : Rng := mkRng (fun n => Z.of_nat (n * n * 7 + n * 3 + 5)) 0.

Definition no_maze : Maze.t := Maze.mk 0 0 0 [] 0 0.

Definition built (w h : Z) : Maze.t :=
  match Maze.new w h 50 demo_rng with
  | Ok (m, _) => m
  | Err _ => no_maze
  end.

Definition demo_maze : Maze.t := Eval vm_compute in built 5 5.

(** ** Counting *)

(** The number of stored cells that are walls. *)
Definition walls (g : Grid) : nat :=
  sum_list_with (sum_list_with (fun c => if Cell.isWall c then 1%nat else 0%nat)) g.

(** What [generateMazeRecursive] asks of its caller: the cell is inside and
    unvisited, marking it restores the invariant, and the fuel covers the
    unvisited cells. *)
Definition gen_pre (w h x y : Z) (g : Grid) (fuel : nat) : Prop :=
  inside w h (x, y) /\ visitedAt g (x, y) = false /\ shape w h g /\
  (forall g1 g2, Maze.update (Cell.set_visited true) g x y = Ok g1 ->
                 Maze.update (Cell.set_isWall false) g1 x y = Ok g2 -> Inv w h g2) /\
  (unvisited g <= fuel)%nat.

(** The account of a run from [(g, r)] to [(g', r')] that has visited [k]
    new cells and opened [opened] cells: four draws per visited cell, from
    the same source. *)
Definition tally (g : Grid) (r : Rng) (g' : Grid) (r' : Rng) (k opened : nat) : Prop :=
  unvisited g = (unvisited g' + k)%nat /\
  walls g = (walls g' + opened)%nat /\
  position r' = (position r + 4 * k)%nat /\
  source r' = source r.

(** ** Drawing *)

(** The rectangles of the wall cells, row by row. *)
Definition wall_rectangles {F : Type} (mazeColor : Raylib.Color) (m : Maze.t)
    : list (Raylib.call F) :=
  y ← seqZ 0 (Maze.height m); x ← seqZ 0 (Maze.width m);
  if wallAt (Maze.grid m) (x, y)
  then [Raylib.DrawRectangle (x * Maze.cellSize m) (y * Maze.cellSize m)
                             (Maze.cellSize m) (Maze.cellSize m) mazeColor]
  else [].

(** ** The game loop *)

(** What holds of the variables of [main] between two frames: the menu
    selections are in range, and either no game is running and no object has
    been created, or a game is running on a constructed maze with the player
    on one of its passages, both of one cell size. *)
Definition sane {T : Type} (s : Main.Locals T) : Prop :=
  0 <= Main.selectedButton s < 4 /\
  0 <= Main.selectedCharacter s < 3 /\
  1 <= Main.difficulty s <= 3 /\
  if Main.gameStarted s then
    exists mo p,
      Main.maze s = Main.object mo /\ Main.player s = Main.object p /\
      constructed (Main.fields mo) /\
      Maze.cellSize (Main.fields mo) = Player.cellSize p /\
      Player.cellSize p ∈ [50; 40; 30] /\
      Maze.isWall (Main.fields mo) (Player.x p) (Player.y p) = Ok false
  else Main.maze s = Main.nullptr /\ Main.player s = Main.nullptr.

(** The faults a run can end in. *)
Definition expected (f : Main.fault) : Prop :=
  f = Main.UseAfterDelete \/ f = Main.Failed OutOfBounds \/
  f = Main.Failed BadArrayNewLength.

(** ** Moves in time *)

(** The time stamps [ts] come after [last], each of them at least [cooldown]
    after the one before: [tge (tsub t last) cooldown] is the test [move]
    makes. *)
Fixpoint spaced {T : Type} `{Clock T} (cooldown last : T) (ts : list T) : Prop :=
  match ts with
  | [] => True
  | t :: ts' => tge (tsub t last) cooldown = true /\ spaced cooldown t ts'
  end.

(** The calls of [move] for the directions [dirs], made at the times [ts]. *)
Definition timed {T : Type} (ts : list T) (dirs : list Dir) : list (T * Z * Z) :=
  zip_with (fun t d => (t, fst d, snd d)) ts dirs.

(** ** More inputs of the examples *)

Definition demo_texture : Raylib.Texture2D := Raylib.mkTexture 1 64 64 1 7.

Definition demo_textures : Main.Textures :=
  Main.mkTextures demo_texture demo_texture demo_texture
                  demo_texture demo_texture demo_texture.

(** A frame in which only the right arrow is down, read at time 300. *)
Definition demo_frame : Main.Frame Z :=
  Main.mkFrame false (fun _ => false)
    (fun k => match k with Raylib.KEY_RIGHT => true | _ => false end)
    (fun _ => 300).

(** A game on [demo_maze] with the player one cell left of the exit. *)
Definition demo_game : Main.Locals Z :=
  Main.mkLocals 0 0 true 1 true
    (Main.object (Main.mkMaze demo_maze Raylib.LIGHTGRAY demo_texture))
    (Main.object (Player.mk 2 3 50 200 0)).

(** * A clock for the examples *)

Lemma Z_ltb_geb (a b : Z) : Z.ltb a b = true -> Z.geb a b = false.
Proof. intros Hlt. apply Z.ltb_lt in Hlt. rewrite Z.geb_leb. apply Z.leb_gt. exact Hlt. Qed.

(** Milliseconds as time stamps. *)
#[export] Instance Z_clock : Clock Z :=
  {| tsub := Z.sub; tge := Z.geb; tlt := Z.ltb; tlt_tge := Z_ltb_geb |}.

(** * Arrays and grids *)

Lemma bind_Ok {A B : Type} (m : result A) (k : A -> result B) (b : B) :
  bind m k = Ok b <-> exists a, m = Ok a /\ k a = Ok b.
Proof.
  destruct m as [a|e]; simpl; split.
  - intros Hk. exists a. auto.
  - intros (a' & Ha & Hk). congruence.
  - discriminate.
  - intros (a' & Ha & _). discriminate.
Qed.

Lemma index_Ok {A : Type} (a : list A) (i : Z) (v : A) :
  index a i = Ok v <-> 0 <= i /\ a !! Z.to_nat i = Some v.
Proof.
  unfold index. destruct (Z.ltb_spec i 0).
  - split; [discriminate | lia].
  - destruct (a !! Z.to_nat i) as [v'|]; split; intros Hv.
    + split; [lia | congruence].
    + destruct Hv as [_ Hv]. congruence.
    + discriminate.
    + destruct Hv as [_ Hv]. discriminate.
Qed.

Lemma index_in_range {A : Type} (a : list A) (i : Z) :
  0 <= i < Z.of_nat (length a) -> exists v, index a i = Ok v.
Proof.
  intros Hi. destruct (lookup_lt_is_Some_2 a (Z.to_nat i)) as [v Hv]; [lia|].
  exists v. apply index_Ok. split; [lia | exact Hv].
Qed.

Lemma index_range {A : Type} (a : list A) (i : Z) (v : A) :
  index a i = Ok v -> 0 <= i < Z.of_nat (length a).
Proof.
  intros [H0 Hv]%index_Ok. apply lookup_lt_Some in Hv. lia.
Qed.

Lemma store_Ok {A : Type} (a a' : list A) (i : Z) (v : A) :
  store a i v = Ok a' <->
  0 <= i < Z.of_nat (length a) /\ a' = <[Z.to_nat i := v]> a.
Proof.
  unfold store.
  destruct (Z.ltb_spec i 0); destruct (Z.leb_spec (Z.of_nat (length a)) i); simpl;
    split; try discriminate; try lia.
  - intros [= <-]. split; [lia | reflexivity].
  - intros [_ ->]. reflexivity.
Qed.

Lemma index_store_same {A : Type} (a a' : list A) (i : Z) (v : A) :
  store a i v = Ok a' -> index a' i = Ok v.
Proof.
  intros [Hi ->]%store_Ok. apply index_Ok. split; [lia|].
  apply list_lookup_insert_eq. lia.
Qed.

Lemma index_store_other {A : Type} (a a' : list A) (i j : Z) (v : A) :
  store a i v = Ok a' -> i <> j -> index a' j = index a j.
Proof.
  intros [Hi ->]%store_Ok Hne. unfold index.
  destruct (Z.ltb_spec j 0); [reflexivity|].
  rewrite list_lookup_insert_ne by lia. reflexivity.
Qed.

Lemma store_length {A : Type} (a a' : list A) (i : Z) (v : A) :
  store a i v = Ok a' -> length a' = length a.
Proof. intros [_ ->]%store_Ok. apply length_insert. Qed.

Lemma sum_list_with_insert {A : Type} (f : A -> nat) (l : list A) (i : nat) (x y : A) :
  l !! i = Some y ->
  (sum_list_with f (<[i := x]> l) + f y = sum_list_with f l + f x)%nat.
Proof.
  revert i. induction l as [|z l IH]; intros [|i] Hy; simpl in *; try discriminate.
  - injection Hy as ->. lia.
  - specialize (IH i Hy). lia.
Qed.

Lemma cell_Ok (g : Grid) (x y : Z) (v : Cell.t) :
  Maze.cell g x y = Ok v <-> exists row, index g y = Ok row /\ index row x = Ok v.
Proof. apply bind_Ok. Qed.

Lemma shape_row (w h : Z) (g : Grid) (y : Z) (row : list Cell.t) :
  shape w h g -> index g y = Ok row -> Z.of_nat (length row) = w.
Proof.
  intros [_ Hrows] [_ Hrow]%index_Ok.
  rewrite Forall_lookup in Hrows. exact (Hrows _ _ Hrow).
Qed.

Lemma shape_cell (w h : Z) (g : Grid) (x y : Z) :
  shape w h g -> (inside w h (x, y) <-> exists v, Maze.cell g x y = Ok v).
Proof.
  intros Hs. unfold inside. simpl. split.
  - intros [Hx Hy]. destruct Hs as [Hlen Hrows].
    destruct (index_in_range g y) as [row Hrow]; [lia|].
    assert (Hw : Z.of_nat (length row) = w) by (eapply shape_row; [split|]; eauto).
    destruct (index_in_range row x) as [v Hv]; [lia|].
    exists v. apply cell_Ok. eauto.
  - intros [v (row & Hrow & Hv)%cell_Ok].
    pose proof (shape_row _ _ _ _ _ Hs Hrow) as Hw.
    apply index_range in Hrow, Hv. destruct Hs as [Hlen _]. lia.
Qed.

Lemma update_Ok (f : Cell.t -> Cell.t) (g g' : Grid) (x y : Z) :
  Maze.update f g x y = Ok g' ->
  exists v, Maze.cell g x y = Ok v /\
            Maze.cell g' x y = Ok (f v) /\
            (forall x' y', (x', y') <> (x, y) -> Maze.cell g' x' y' = Maze.cell g x' y') /\
            (forall w h, shape w h g -> shape w h g') /\
            (unvisited g' + (if Cell.visited v then 0 else 1)
             = unvisited g + (if Cell.visited (f v) then 0 else 1))%nat.
Proof.
  unfold Maze.update.
  intros (row & Hrow & (v & Hv & (row' & Hrow' & Hg')%bind_Ok)%bind_Ok)%bind_Ok.
  exists v. split; [apply cell_Ok; eauto|]. split; [|split; [|split]].
  - apply cell_Ok. exists row'. split; eauto using index_store_same.
  - intros x' y' Hne. unfold Maze.cell.
    destruct (Z.eq_dec y y') as [<-|Hy].
    + rewrite (index_store_same _ _ _ _ Hg'), Hrow. simpl.
      apply (index_store_other _ _ _ _ _ Hrow'). congruence.
    + rewrite (index_store_other _ _ _ _ _ Hg' Hy). reflexivity.
  - intros w h [Hlen Hrows]. split.
    + rewrite (store_length _ _ _ _ Hg'). exact Hlen.
    + apply store_Ok in Hg' as [_ ->]. apply Forall_insert; [exact Hrows|].
      rewrite (store_length _ _ _ _ Hrow').
      apply index_Ok in Hrow as [_ Hrow]. rewrite Forall_lookup in Hrows.
      exact (Hrows _ _ Hrow).
  - apply index_Ok in Hrow as [_ Hrow]. apply index_Ok in Hv as [_ Hv].
    apply store_Ok in Hg' as [_ ->]. apply store_Ok in Hrow' as [_ ->].
    unfold unvisited.
    pose proof (sum_list_with_insert
      (sum_list_with (fun c => if Cell.visited c then 0%nat else 1%nat)) g (Z.to_nat y)
      (<[Z.to_nat x := f v]> row) row Hrow) as Hsum.
    pose proof (sum_list_with_insert
      (fun c => if Cell.visited c then 0%nat else 1%nat) row (Z.to_nat x) (f v) v Hv) as Hsum'.
    lia.
Qed.

Lemma update_runs (f : Cell.t -> Cell.t) (w h : Z) (g : Grid) (x y : Z) :
  shape w h g -> inside w h (x, y) -> exists g', Maze.update f g x y = Ok g'.
Proof.
  intros Hs Hin. apply (shape_cell _ _ _ _ _ Hs) in Hin as [v (row & Hrow & Hv)%cell_Ok].
  unfold Maze.update. rewrite Hrow. simpl. rewrite Hv. simpl.
  pose proof (index_range _ _ _ Hrow) as Hy. pose proof (index_range _ _ _ Hv) as Hx.
  destruct (store row x (f v)) as [row'|e] eqn:Hrow'.
  - simpl. destruct (store g y row') as [g'|e] eqn:Hg'; [eauto|].
    unfold store in Hg'.
    destruct (Z.ltb_spec y 0); destruct (Z.leb_spec (Z.of_nat (length g)) y);
      simpl in Hg'; try lia; discriminate.
  - unfold store in Hrow'.
    destruct (Z.ltb_spec x 0); destruct (Z.leb_spec (Z.of_nat (length row)) x);
      simpl in Hrow'; try lia; discriminate.
Qed.

Lemma update_outside (f : Cell.t -> Cell.t) (w h : Z) (g : Grid) (x y : Z) :
  shape w h g -> ~ inside w h (x, y) -> Maze.update f g x y = Err OutOfBounds.
Proof.
  intros Hs Hout. destruct (Maze.update f g x y) as [g'|e] eqn:Hup.
  - apply update_Ok in Hup as (v & Hv & _). exfalso. apply Hout.
    apply (shape_cell _ _ _ _ _ Hs). eauto.
  - unfold Maze.update, index, store in Hup.
    repeat match type of Hup with
           | context [if ?b then _ else _] => destruct b; simpl in Hup
           | context [match ?o with Some _ => _ | None => _ end] => destruct o; simpl in Hup
           end; congruence.
Qed.

(** What [wallAt] and [visitedAt] see of an update. *)
Lemma update_flags (f : Cell.t -> Cell.t) (g g' : Grid) (x y : Z) :
  Maze.update f g x y = Ok g' ->
  exists v, Maze.cell g x y = Ok v /\
    wallAt g' (x, y) = Cell.isWall (f v) /\
    visitedAt g' (x, y) = Cell.visited (f v) /\
    (forall c, c <> (x, y) -> wallAt g' c = wallAt g c /\ visitedAt g' c = visitedAt g c).
Proof.
  intros (v & Hv & Hv' & Hother & _)%update_Ok. exists v.
  unfold wallAt, visitedAt. simpl. rewrite Hv'. repeat split; auto.
  - rewrite Hother; [reflexivity|]. destruct c; exact H.
  - rewrite Hother; [reflexivity|]. destruct c; exact H.
Qed.

(** * Paths and trees *)

Lemma adjacent_sym (a b : Pos) : adjacent a b -> adjacent b a.
Proof. unfold adjacent. lia. Qed.

Lemma walk_Forall (P : Pos -> Prop) (b a : Pos) (l : list Pos) :
  walk P b a l -> Forall P l.
Proof. induction 1; constructor; auto. Qed.

Lemma walk_head (P : Pos -> Prop) (b a : Pos) (l : list Pos) :
  walk P b a l -> exists l', l = a :: l'.
Proof. destruct 1; eauto. Qed.

Lemma walk_change (P Q : Pos -> Prop) (b a : Pos) (l : list Pos) :
  walk P b a l -> Forall Q l -> walk Q b a l.
Proof.
  induction 1 as [Hb|a a' l Ha Hadj Hw IH]; intros HQ.
  - apply walk_end. apply Forall_cons in HQ as [HQ _]. exact HQ.
  - apply Forall_cons in HQ as [HQa HQ]. eapply walk_step; eauto.
Qed.

Section Leaf.

(** [P'] is [P] with one more cell [v], whose only neighbour in [P] is [u]. *)
Variables (root u v : Pos) (P P' : Pos -> Prop).
Hypothesis P_root : P root.
Hypothesis P_v : ~ P v.
Hypothesis P_u : P u.
Hypothesis v_u : adjacent v u.
Hypothesis P'_P : forall c, P' c <-> P c \/ c = v.
Hypothesis v_leaf : forall m, adjacent v m -> P m -> m = u.

Lemma leaf_avoided (a : Pos) (l : list Pos) :
  walk P' root a l -> NoDup l -> a <> v -> v ∉ l.
Proof using P_root P_v P'_P v_leaf.
  induction 1 as [Hb|a a' l Ha Hadj Hw IH]; intros Hnd Hne.
  - intros Hin%list_elem_of_singleton. congruence.
  - apply NoDup_cons in Hnd as [Ha_l Hnd]. apply not_elem_of_cons. split; [congruence|].
    destruct (decide (a' = v)) as [->|Ha']; [|auto].
    exfalso.
    assert (a = u) as ->.
    { apply v_leaf; [apply adjacent_sym; exact Hadj|].
      apply P'_P in Ha as [Ha| ->]; [exact Ha | congruence]. }
    inversion Hw as [Hb Hroot Hl|v0 b' l2 Hv Hadj' Hw' Hv0 Hl]; subst.
    + apply P_v, P_root.
    + destruct (walk_head _ _ _ _ Hw') as [l3 ->].
      apply NoDup_cons in Hnd as [Hv_l2 _].
      assert (b' <> v) as Hb' by (intros ->; apply Hv_l2; constructor).
      assert (b' = u) as ->.
      { apply v_leaf; [exact Hadj'|].
        apply walk_Forall, Forall_cons in Hw' as [Hb _].
        apply P'_P in Hb as [Hb| ->]; [exact Hb | congruence]. }
      apply Ha_l. right. left.
Qed.

Lemma leaf_walk_old (c : Pos) (l : list Pos) :
  P c -> walk P' root c l -> NoDup l -> walk P root c l.
Proof using P_root P_v P'_P v_leaf.
  intros Hc Hw Hnd.
  assert (c <> v) as Hne by (intros ->; auto).
  pose proof (leaf_avoided _ _ Hw Hnd Hne) as Hv.
  apply (walk_change P'); [exact Hw|].
  apply Forall_forall. intros m Hm.
  pose proof (walk_Forall _ _ _ _ Hw) as HP'. rewrite Forall_forall in HP'.
  destruct (proj1 (P'_P m) (HP' m Hm)) as [Hm'| ->]; [exact Hm' | contradiction].
Qed.

Lemma leaf_walk_new (c : Pos) (l : list Pos) : walk P root c l -> walk P' root c l.
Proof using P'_P.
  intros Hw. apply (walk_change P); [exact Hw|].
  eapply Forall_impl; [exact (walk_Forall _ _ _ _ Hw)|].
  intros m Hm. apply P'_P. left. exact Hm.
Qed.

(** A tree with a leaf added is a tree. *)
Lemma tree_add_leaf : tree_to root P -> tree_to root P'.
Proof using All.
  intros Htree c Hc.
  assert (Hold : forall c, P c -> exists l, (walk P' root c l /\ NoDup l) /\
            Forall P l /\ forall l', walk P' root c l' /\ NoDup l' -> l' = l).
  { intros a Ha. destruct (Htree a Ha) as (l & [Hw Hnd] & Huniq).
    exists l. split; [split; [apply leaf_walk_new|]; assumption|].
    split; [exact (walk_Forall _ _ _ _ Hw)|].
    intros l' [Hw' Hnd']. apply Huniq. split; [|exact Hnd'].
    apply leaf_walk_old; assumption. }
  apply P'_P in Hc as [Hc| ->].
  - destruct (Hold c Hc) as (l & Hl & _ & Huniq). eauto.
  - destruct (Hold u P_u) as (l & [Hw Hnd] & HP & Huniq).
    exists (v :: l). split; [split|].
    + eapply walk_step; [apply P'_P; auto | exact v_u | exact Hw].
    + apply NoDup_cons. split; [|exact Hnd].
      intros Hin. rewrite Forall_forall in HP. apply P_v, HP, Hin.
    + intros l' [Hw' Hnd'].
      inversion Hw' as [Hb Hroot Hl|v0 b' l2 Hv Hadj' Hw2 Hv0 Hl]; subst.
      * exfalso. apply P_v, P_root.
      * apply NoDup_cons in Hnd' as [Hv_l2 Hnd2].
        destruct (walk_head _ _ _ _ Hw2) as [l3 ->].
        assert (b' <> v) as Hb' by (intros ->; apply Hv_l2; constructor).
        assert (b' = u) as ->.
        { apply v_leaf; [exact Hadj'|].
          apply walk_Forall, Forall_cons in Hw2 as [Hb _].
          apply P'_P in Hb as [Hb| ->]; [exact Hb | congruence]. }
        f_equal. apply Huniq. split; assumption.
Qed.

(** Nor does the leaf close a cycle. *)
Lemma acyclic_add_leaf : acyclic P -> acyclic P'.
Proof using P'_P v_leaf.
  intros Hac l (Hlen & Hnd & HP & Hnext & Hclose).
  destruct (decide (v ∈ l)) as [Hin|Hout].
  - apply list_elem_of_lookup in Hin as [i Hi].
    pose proof (lookup_lt_Some _ _ _ Hi) as Hik.
    assert (Hnb : forall j m, l !! j = Some m -> j <> i -> adjacent v m -> m = u).
    { intros j m Hm Hji Hadj. apply v_leaf; [exact Hadj|].
      rewrite Forall_lookup in HP. destruct (proj1 (P'_P m) (HP _ _ Hm)) as [Hm'| ->].
      - exact Hm'.
      - exfalso. apply Hji. exact (NoDup_lookup _ _ _ _ Hnd Hm Hi). }
    set (s := if decide (S i = length l) then 0%nat else S i).
    set (q := if decide (i = 0%nat) then (length l - 1)%nat else (i - 1)%nat).
    destruct (lookup_lt_is_Some_2 l s) as [a Ha]; [subst s; case_decide; lia|].
    destruct (lookup_lt_is_Some_2 l q) as [b Hb]; [subst q; case_decide; lia|].
    assert (adjacent v a) as Hva.
    { subst s. case_decide as Hs.
      - apply Hclose; [exact Ha|].
        replace (length l - 1)%nat with i by lia. exact Hi.
      - apply (Hnext i); assumption. }
    assert (adjacent v b) as Hvb.
    { subst q. case_decide as Hq.
      - subst i. apply adjacent_sym, Hclose; assumption.
      - apply adjacent_sym, (Hnext (i - 1)%nat); [exact Hb|].
        replace (S (i - 1)) with i by lia. exact Hi. }
    assert (s <> i) as Hsi by (subst s; case_decide; lia).
    assert (q <> i) as Hqi by (subst q; case_decide; lia).
    assert (s <> q) as Hsq by (subst s q; repeat case_decide; lia).
    rewrite (Hnb s a Ha Hsi Hva) in Ha. rewrite (Hnb q b Hb Hqi Hvb) in Hb.
    apply Hsq. exact (NoDup_lookup _ _ _ _ Hnd Ha Hb).
  - apply (Hac l). split; [exact Hlen|]. split; [exact Hnd|]. split; [|auto].
    apply Forall_forall. intros m Hm. rewrite Forall_forall in HP.
    destruct (proj1 (P'_P m) (HP m Hm)) as [Hm'| ->]; [exact Hm' | contradiction].
Qed.

End Leaf.

(** A single cell is a tree. *)
Lemma tree_single (root : Pos) (P : Pos -> Prop) :
  (forall c, P c <-> c = root) -> tree_to root P.
Proof.
  intros HP c ->%HP. exists [root]. split.
  - split; [apply walk_end, HP; reflexivity | apply NoDup_singleton].
  - intros l' [Hw _]. inversion Hw as [Hb Hroot Hl|a0 a' l2 Ha Hadj Hw2 Ha0 Hl]; subst.
    + reflexivity.
    + exfalso. destruct (walk_head _ _ _ _ Hw2) as [l3 ->].
      apply walk_Forall, Forall_cons in Hw2 as [->%HP _].
      unfold adjacent in Hadj. lia.
Qed.

Lemma tree_to_ext (root : Pos) (P Q : Pos -> Prop) :
  (forall c, P c <-> Q c) -> tree_to root P -> tree_to root Q.
Proof.
  intros HPQ Htree c Hc%HPQ. destruct (Htree c Hc) as (l & [Hw Hnd] & Huniq).
  assert (HF : forall b l, walk P root b l -> Forall Q l).
  { intros b l0 Hl0. eapply Forall_impl; [exact (walk_Forall _ _ _ _ Hl0)|].
    intros m. apply HPQ. }
  assert (HF' : forall b l, walk Q root b l -> Forall P l).
  { intros b l0 Hl0. eapply Forall_impl; [exact (walk_Forall _ _ _ _ Hl0)|].
    intros m. apply HPQ. }
  exists l. split; [split; [|exact Hnd]|].
  - eapply walk_change; eauto.
  - intros l' [Hw' Hnd']. apply Huniq. split; [|exact Hnd'].
    eapply walk_change; eauto.
Qed.

Lemma acyclic_ext (P Q : Pos -> Prop) :
  (forall c, P c <-> Q c) -> acyclic P -> acyclic Q.
Proof.
  intros HPQ Hac l (Hlen & Hnd & HQ & Hrest). apply (Hac l).
  split; [exact Hlen|]. split; [exact Hnd|]. split; [|exact Hrest].
  eapply Forall_impl; [exact HQ|]. intros m. apply HPQ.
Qed.

Lemma acyclic_single (root : Pos) (P : Pos -> Prop) :
  (forall c, P c <-> c = root) -> acyclic P.
Proof.
  intros HP l (Hlen & Hnd & Hall & _).
  destruct l as [|a [|b l]]; simpl in Hlen; try lia.
  apply Forall_cons in Hall as [->%HP Hall]. apply Forall_cons in Hall as [->%HP _].
  apply NoDup_cons in Hnd as [Hnd _]. apply Hnd. left.
Qed.

(** * The shuffle *)

Lemma GetRandomValue_range (min max : Z) (r : Rng) :
  min <= max -> min <= fst (GetRandomValue min max r) <= max.
Proof.
  intros Hle. unfold GetRandomValue, rand.
  destruct (Z.ltb_spec max min); [lia|]. simpl.
  pose proof (Z.mod_pos_bound (source r (position r)) (Z.abs (max - min) + 1)). lia.
Qed.

Lemma swap_perm (d : list Dir) (i j : Z) :
  length d = 4%nat -> 0 <= i <= 3 -> 0 <= j <= 3 ->
  exists d', Maze.swap i j d = Ok d' /\ d' ≡ₚ d.
Proof.
  intros Hlen Hi Hj.
  destruct d as [|a [|b [|c [|e [|]]]]]; try discriminate.
  assert (i = 0 \/ i = 1 \/ i = 2 \/ i = 3) as Hi' by lia.
  assert (j = 0 \/ j = 1 \/ j = 2 \/ j = 3) as Hj' by lia.
  destruct Hi' as [-> | [-> | [-> | ->]]]; destruct Hj' as [-> | [-> | [-> | ->]]];
    (eexists; split; [reflexivity | solve_Permutation]).
Qed.

Lemma shuffle_perm {S : Type} (draw : Z -> Z -> S -> Z * S) :
  (forall i s, 0 <= i <= 3 -> i <= fst (draw i 3 s) <= 3) ->
  forall (n : nat) (i : Z) (d : list Dir) (s : S),
    length d = 4%nat -> 0 <= i -> i + Z.of_nat n <= 4 ->
    exists d' s', Maze.shuffle draw n i d s = Ok (d', s') /\ d' ≡ₚ d.
Proof.
  intros Hdraw. induction n as [|n IH]; intros i d s Hlen Hi Hn; simpl.
  - exists d, s. split; reflexivity.
  - specialize (Hdraw i s). destruct (draw i 3 s) as [j s']. simpl in Hdraw.
    destruct (swap_perm d i j) as (d1 & -> & Hperm); [exact Hlen | lia | lia |]. simpl.
    destruct (IH (i + 1) d1 s') as (d' & s2 & -> & Hperm'); [|lia|lia|].
    + rewrite Hperm. exact Hlen.
    + exists d', s2. split; [reflexivity|]. rewrite Hperm'. exact Hperm.
Qed.

(** The shuffle of [generateMazeRecursive] always returns the four unit
    directions in some order. *)
Lemma shuffle_directions (r : Rng) :
  exists dirs r', Maze.shuffle GetRandomValue 4 0 Maze.directions r = Ok (dirs, r') /\
                  dirs ≡ₚ Maze.directions.
Proof.
  apply shuffle_perm; [|reflexivity|lia|simpl; lia].
  intros i s Hi. apply GetRandomValue_range. lia.
Qed.

(** * The invariant of generation *)

Lemma unit_dir_cases (d : Dir) :
  unit_dir d -> d = (0, -1) \/ d = (0, 1) \/ d = (-1, 0) \/ d = (1, 0).
Proof.
  unfold unit_dir, Maze.directions. rewrite !elem_of_cons, elem_of_nil. tauto.
Qed.

Ltac grid_arith :=
  unfold sublattice, adjacent, inside, step, start, Z.Odd in *; simpl in *;
  repeat match goal with
         | H : _ /\ _ |- _ => destruct H
         | H : exists _, _ |- _ => destruct H
         | H : (_, _) = (_, _) |- _ => injection H as ? ?
         end;
  subst; simpl in *; try lia.

Lemma sublattice_far (c : Pos) (d : Dir) :
  sublattice c -> unit_dir d -> sublattice (step c d 2).
Proof.
  intros [[a Ha] [b Hb]] Hd. destruct c as [x y]. simpl in *.
  apply unit_dir_cases in Hd as [-> | [-> | [-> | ->]]]; unfold sublattice, step; simpl; split;
    first [ exists a; lia | exists b; lia | exists (a - 1); lia | exists (a + 1); lia
          | exists (b - 1); lia | exists (b + 1); lia ].
Qed.

Lemma pos_eq_dec (a b : Pos) : a = b \/ a <> b.
Proof. destruct (decide (a = b)); auto. Qed.

Section Carve.

(** From a visited cell [c], the generator carves [c + d] and enters
    [c + 2d]. *)
Variables (w h : Z) (g g3 : Grid) (c : Pos) (d : Dir).
Let c' : Pos := step c d 1.
Let n : Pos := step c d 2.
Hypothesis g_inv : Inv w h g.
Hypothesis c_visited : visitedAt g c = true.
Hypothesis d_unit : unit_dir d.
Hypothesis n_new : visitedAt g n = false.
Hypothesis g3_shape : shape w h g3.
Hypothesis g3_passage : forall m, passage g3 m <-> passage g m \/ m = c' \/ m = n.
Hypothesis g3_visited : forall m, visitedAt g3 m = true <-> visitedAt g m = true \/ m = n.

Lemma carve_c_sub : sublattice c.
Proof. apply (inv_visited _ _ _ g_inv), c_visited. Qed.

Lemma carve_n_sub : sublattice n.
Proof. apply sublattice_far; [apply carve_c_sub | exact d_unit]. Qed.

Lemma carve_n_wall : ~ passage g n.
Proof.
  intros Hn. assert (visitedAt g n = true) as Hv; [|congruence].
  apply (inv_visited _ _ _ g_inv). split; [exact Hn | apply carve_n_sub].
Qed.

Lemma carve_c'_wall : ~ passage g c'.
Proof.
  intros Hc'. assert (visitedAt g n = true) as Hv; [|congruence].
  apply (inv_joint _ _ _ g_inv c'); [exact Hc' | | apply carve_n_sub].
  subst c' n. destruct c as [x y].
  apply unit_dir_cases in d_unit as [-> | [-> | [-> | ->]]]; grid_arith.
Qed.

Lemma carve_c'_leaf (m : Pos) : adjacent c' m -> passage g m -> m = c.
Proof.
  intros Hadj Hm.
  pose proof (inv_parity _ _ _ g_inv m Hm) as Hpar.
  pose proof carve_c_sub as Hc.
  destruct (pos_eq_dec m n) as [->|Hne]; [exfalso; apply carve_n_wall, Hm|].
  subst c' n. destruct c as [x y], m as [mx my].
  assert (mx = x /\ my = y) as [-> ->]; [|reflexivity].
  assert (~ (mx = x + fst d * 2 /\ my = y + snd d * 2)) as Hne'.
  { intros [-> ->]. apply Hne. reflexivity. }
  clear Hne Hm.
  apply unit_dir_cases in d_unit as [-> | [-> | [-> | ->]]];
    destruct Hpar as [Hpar | Hpar]; grid_arith.
Qed.

Lemma carve_n_leaf (m : Pos) : adjacent n m -> passage g m \/ m = c' -> m = c'.
Proof.
  intros Hadj [Hm | ->]; [|reflexivity].
  assert (visitedAt g n = true) as Hv; [|congruence].
  apply (inv_joint _ _ _ g_inv m); [exact Hm | apply adjacent_sym, Hadj | apply carve_n_sub].
Qed.

Lemma carve_tree : tree_to start (passage g3).
Proof.
  pose proof (inv_tree _ _ _ g_inv) as Ht.
  pose proof (inv_start _ _ _ g_inv) as Hs.
  pose proof carve_c_sub as Hc.
  assert (passage g c) as Hpc by (apply (inv_visited _ _ _ g_inv), c_visited).
  assert (adjacent c' c) as Hc'c.
  { subst c'. destruct c. apply unit_dir_cases in d_unit as [-> | [-> | [-> | ->]]]; grid_arith. }
  assert (adjacent n c') as Hnc'.
  { subst c' n. destruct c. apply unit_dir_cases in d_unit as [-> | [-> | [-> | ->]]]; grid_arith. }
  assert (n <> c') as Hn_c'.
  { subst c' n. destruct c. apply unit_dir_cases in d_unit as [-> | [-> | [-> | ->]]];
      intros [=]; lia. }
  apply (tree_add_leaf start c' n (fun m => passage g m \/ m = c')).
  - left. exact Hs.
  - intros [Hn | Hn]; [exact (carve_n_wall Hn) | exact (Hn_c' Hn)].
  - right. reflexivity.
  - exact Hnc'.
  - intros m. rewrite g3_passage. tauto.
  - intros m Hadj Hm. apply carve_n_leaf; assumption.
  - apply (tree_add_leaf start c c' (passage g)); auto using carve_c'_wall, carve_c'_leaf.
Qed.

Lemma carve_acyclic : acyclic (passage g3).
Proof.
  apply (acyclic_add_leaf c' n (fun m => passage g m \/ m = c')).
  - intros m. rewrite g3_passage. tauto.
  - intros m Hadj Hm. apply carve_n_leaf; assumption.
  - apply (acyclic_add_leaf c c' (passage g)).
    + intros m. tauto.
    + apply carve_c'_leaf.
    + apply (inv_acyclic _ _ _ g_inv).
Qed.

Lemma carve_Inv : Inv w h g3.
Proof.
  pose proof carve_c_sub as Hc. pose proof carve_n_sub as Hn.
  split.
  - exact g3_shape.
  - apply g3_passage. left. apply (inv_start _ _ _ g_inv).
  - intros m [Hm | [-> | ->]]%g3_passage.
    + apply (inv_parity _ _ _ g_inv), Hm.
    + subst c'. destruct c. clear Hn.
      apply unit_dir_cases in d_unit as [-> | [-> | [-> | ->]]];
        destruct Hc as [[a Ha] [b Hb]]; simpl in *;
        first [ left; exists a; lia | right; exists b; lia ].
    + left. apply Hn.
  - intros m. rewrite g3_visited, g3_passage. split.
    + intros [Hm | ->].
      * apply (inv_visited _ _ _ g_inv) in Hm. tauto.
      * tauto.
    + intros [[Hm | [-> | ->]] Hsub].
      * left. apply (inv_visited _ _ _ g_inv). tauto.
      * exfalso. subst c'. destruct c. clear Hn.
        apply unit_dir_cases in d_unit as [-> | [-> | [-> | ->]]]; grid_arith.
      * right. reflexivity.
  - intros m k [Hm | [-> | ->]]%g3_passage Hadj Hk; apply g3_visited.
    + left. apply (inv_joint _ _ _ g_inv m); assumption.
    + destruct (pos_eq_dec k n) as [->|Hne]; [right; reflexivity|]. left.
      assert (k = c) as ->; [|exact c_visited].
      subst c' n. destruct c as [x y], k as [kx ky].
      assert (kx = x /\ ky = y) as [-> ->]; [|reflexivity].
      assert (~ (kx = x + fst d * 2 /\ ky = y + snd d * 2)) as Hne'.
      { intros [-> ->]. apply Hne. reflexivity. }
      clear Hne Hn.
      apply unit_dir_cases in d_unit as [-> | [-> | [-> | ->]]]; grid_arith.
    + exfalso. clear Hc. grid_arith.
  - apply carve_tree.
  - apply carve_acyclic.
Qed.

End Carve.

(** * Running the generator *)

Lemma carve_flags (g g1 : Grid) (x y : Z) :
  Maze.update (Cell.set_isWall false) g x y = Ok g1 ->
  (forall m, passage g1 m <-> passage g m \/ m = (x, y)) /\
  (forall m, visitedAt g1 m = visitedAt g m) /\
  (forall w h, shape w h g -> shape w h g1) /\
  unvisited g1 = unvisited g.
Proof.
  intros Hup. destruct (update_flags _ _ _ _ _ Hup) as (v & Hv & Hwall & Hvis & Hother).
  destruct (update_Ok _ _ _ _ _ Hup) as (v' & Hv' & _ & _ & Hshape & Hcount).
  assert (v' = v) as -> by congruence.
  split; [|split; [|split]].
  - intros m. unfold passage. destruct (pos_eq_dec m (x, y)) as [->|Hne].
    + rewrite Hwall. simpl. tauto.
    + destruct (Hother m Hne) as [-> _]. tauto.
  - intros m. destruct (pos_eq_dec m (x, y)) as [->|Hne].
    + rewrite Hvis. unfold visitedAt. simpl. rewrite Hv. reflexivity.
    + apply Hother, Hne.
  - exact Hshape.
  - simpl in Hcount. lia.
Qed.

Lemma visit_flags (g g1 : Grid) (x y : Z) :
  Maze.update (Cell.set_visited true) g x y = Ok g1 ->
  (forall m, wallAt g1 m = wallAt g m) /\
  (forall m, visitedAt g1 m = true <-> visitedAt g m = true \/ m = (x, y)) /\
  (forall w h, shape w h g -> shape w h g1) /\
  (unvisited g1 + (if visitedAt g (x, y) then 0 else 1) = unvisited g)%nat.
Proof.
  intros Hup. destruct (update_flags _ _ _ _ _ Hup) as (v & Hv & Hwall & Hvis & Hother).
  destruct (update_Ok _ _ _ _ _ Hup) as (v' & Hv' & _ & _ & Hshape & Hcount).
  assert (v' = v) as -> by congruence.
  split; [|split; [|split]].
  - intros m. destruct (pos_eq_dec m (x, y)) as [->|Hne].
    + rewrite Hwall. unfold wallAt. simpl. rewrite Hv. reflexivity.
    + apply Hother, Hne.
  - intros m. destruct (pos_eq_dec m (x, y)) as [->|Hne].
    + rewrite Hvis. simpl. tauto.
    + destruct (Hother m Hne) as [_ ->]. tauto.
  - exact Hshape.
  - unfold visitedAt at 1. simpl. rewrite Hv. simpl in Hcount. lia.
Qed.

Lemma closed_mono (w h : Z) (g g' : Grid) (c : Pos) :
  (forall m, visitedAt g m = true -> visitedAt g' m = true) ->
  closed w h g c -> closed w h g' c.
Proof. intros Hmono Hc d Hd Hin. apply Hmono, Hc; assumption. Qed.

Lemma gen_post_trans (w h : Z) (g g1 g2 : Grid) :
  (forall m, visitedAt g1 m = visitedAt g m) -> unvisited g1 = unvisited g ->
  gen_post w h g1 g2 -> forall g', gen_post w h g2 g' -> gen_post w h g g'.
Proof.
  intros Hsame Hcount (_ & Hmono1 & Hle1 & Hcl1) g' (Hinv & Hmono2 & Hle2 & Hcl2).
  split; [exact Hinv|]. split; [|split].
  - intros m Hm. apply Hmono2, Hmono1. rewrite Hsame. exact Hm.
  - lia.
  - intros m Hm' Hm. destruct (visitedAt g2 m) eqn:Hm2.
    + apply (closed_mono _ _ g2); [exact Hmono2|]. apply Hcl1; [exact Hm2|].
      rewrite Hsame. exact Hm.
    + apply Hcl2; assumption.
Qed.

Lemma isInsideGrid_spec (w h x y : Z) :
  Maze.isInsideGrid w h x y = true <-> inside w h (x, y).
Proof.
  unfold Maze.isInsideGrid, inside. simpl.
  rewrite !andb_true_iff, !Z.leb_le, !Z.ltb_lt. tauto.
Qed.

Lemma gen_post_refl (w h : Z) (g : Grid) : Inv w h g -> gen_post w h g g.
Proof.
  intros Hinv. split; [exact Hinv|]. split; [auto|]. split; [lia|].
  intros c Hc Hc'. congruence.
Qed.

Lemma explore_ok (w h : Z) (recurse : Z -> Z -> Grid * Rng -> result (Grid * Rng))
    (f : nat) (x y : Z) :
  gen_ok w h recurse f ->
  forall dirs g r,
    Forall unit_dir dirs -> Inv w h g -> inside w h (x, y) ->
    visitedAt g (x, y) = true -> (unvisited g <= f)%nat ->
    exists g' r', Maze.explore w h recurse x y dirs (g, r) = Ok (g', r') /\
                  gen_post w h g g' /\
                  forall d, d ∈ dirs -> inside w h (step (x, y) d 2) ->
                            visitedAt g' (step (x, y) d 2) = true.
Proof.
  intros Hrec. induction dirs as [|[dx dy] rest IH]; intros g r Hdirs Hinv Hin Hvis Hfuel.
  - exists g, r. split; [reflexivity|]. split; [apply gen_post_refl, Hinv|].
    intros d Hd. apply elem_of_nil in Hd. contradiction.
  - apply Forall_cons in Hdirs as [Hd Hrest]. simpl.
    destruct (Maze.isInsideGrid w h (x + dx * 2) (y + dy * 2)) eqn:Hn.
    + apply isInsideGrid_spec in Hn.
      destruct (proj1 (shape_cell _ _ _ _ _ (inv_shape _ _ _ Hinv)) Hn) as [v Hv].
      rewrite Hv. simpl.
      destruct (Cell.visited v) eqn:Hvv; simpl.
      * destruct (IH g r Hrest Hinv Hin Hvis Hfuel) as (g' & r' & Hrun & Hpost & Hdone).
        exists g', r'. split; [exact Hrun|]. split; [exact Hpost|].
        intros d [-> | Hd']%elem_of_cons Hdin; [|auto].
        destruct Hpost as (_ & Hmono & _). apply Hmono.
        unfold visitedAt, step. simpl. rewrite Hv. exact Hvv.
      * assert (visitedAt g (x + dx * 2, y + dy * 2) = false) as Hnew.
        { unfold visitedAt. simpl. rewrite Hv. exact Hvv. }
        destruct (update_runs (Cell.set_isWall false) w h g (x + dx) (y + dy)
                    (inv_shape _ _ _ Hinv)) as [g1 Hg1].
        { apply unit_dir_cases in Hd as [Hd | [Hd | [Hd | Hd]]];
            injection Hd as -> ->; grid_arith. }
        rewrite Hg1. simpl.
        destruct (carve_flags _ _ _ _ Hg1) as (Hp1 & Hv1 & Hs1 & Hc1).
        destruct (Hrec (x + dx * 2) (y + dy * 2) g1 r) as (g2 & r2 & Hrun2 & Hpost2 & Hvis2).
        { exact Hn. }
        { rewrite Hv1. exact Hnew. }
        { apply Hs1, (inv_shape _ _ _ Hinv). }
        { intros ga gb Hga Hgb.
          destruct (visit_flags _ _ _ _ Hga) as (Hwa & Hva & Hsa & _).
          destruct (carve_flags _ _ _ _ Hgb) as (Hpb & Hvb & Hsb & _).
          apply (carve_Inv w h g gb (x, y) (dx, dy)); auto.
          - apply Hsb, Hsa, Hs1, (inv_shape _ _ _ Hinv).
          - intros m. rewrite Hpb. unfold passage at 1. rewrite Hwa.
            fold (passage g1 m). rewrite Hp1. unfold step. simpl.
            rewrite !Z.mul_1_r. tauto.
          - intros m. rewrite Hvb, Hva, Hv1. reflexivity. }
        { lia. }
        rewrite Hrun2. simpl.
        destruct (IH g2 r2 Hrest) as (g' & r' & Hrun & Hpost & Hdone).
        { apply Hpost2. }
        { exact Hin. }
        { destruct Hpost2 as (_ & Hmono & _). apply Hmono. rewrite Hv1. exact Hvis. }
        { destruct Hpost2 as (_ & _ & Hle & _). lia. }
        exists g', r'. split; [exact Hrun|]. split.
        -- apply (gen_post_trans w h g g1 g2); assumption.
        -- intros d [-> | Hd']%elem_of_cons Hdin; [|auto].
           destruct Hpost as (_ & Hmono & _). apply Hmono. exact Hvis2.
    + destruct (IH g r Hrest Hinv Hin Hvis Hfuel) as (g' & r' & Hrun & Hpost & Hdone).
      exists g', r'. split; [exact Hrun|]. split; [exact Hpost|].
      intros d [-> | Hd']%elem_of_cons Hdin; [|auto].
      apply isInsideGrid_spec in Hdin. unfold step in Hdin. simpl in Hdin. congruence.
Qed.

Lemma unvisited_pos (w h : Z) (g : Grid) (c : Pos) :
  shape w h g -> inside w h c -> visitedAt g c = false -> (1 <= unvisited g)%nat.
Proof.
  intros Hs Hin Hc. destruct c as [x y].
  destruct (update_runs (Cell.set_visited true) w h g x y Hs Hin) as [g1 Hg1].
  destruct (visit_flags _ _ _ _ Hg1) as (_ & _ & _ & Hcount).
  rewrite Hc in Hcount. lia.
Qed.

(** [generateMazeRecursive] meets its contract for every amount of fuel
    that covers the unvisited cells. *)
Lemma generateMazeRecursive_ok (w h : Z) (fuel : nat) :
  gen_ok w h (Maze.generateMazeRecursive w h fuel) fuel.
Proof.
  induction fuel as [|f IH]; intros x y g r Hin Hnew Hshape Hmark Hfuel.
  - pose proof (unvisited_pos _ _ _ _ Hshape Hin Hnew). lia.
  - destruct (update_runs (Cell.set_visited true) w h g x y Hshape Hin) as [g1 Hg1].
    destruct (visit_flags _ _ _ _ Hg1) as (Hw1 & Hv1 & Hs1 & Hc1).
    destruct (update_runs (Cell.set_isWall false) w h g1 x y (Hs1 _ _ Hshape) Hin) as [g2 Hg2].
    destruct (carve_flags _ _ _ _ Hg2) as (Hp2 & Hv2 & Hs2 & Hc2).
    cbn [Maze.generateMazeRecursive fst snd]. rewrite Hg1. cbn [bind].
    rewrite Hg2. cbn [bind].
    destruct (shuffle_directions r) as (dirs & r1 & -> & Hperm). cbn [bind].
    rewrite Hnew in Hc1.
    destruct (explore_ok w h _ f x y IH dirs g2 r1) as (g' & r' & Hrun & Hpost & Hdone).
    { apply Forall_forall. intros d Hd. unfold unit_dir. rewrite <- Hperm. exact Hd. }
    { exact (Hmark g1 g2 Hg1 Hg2). }
    { exact Hin. }
    { rewrite Hv2. apply Hv1. right. reflexivity. }
    { lia. }
    exists g', r'. split; [exact Hrun|].
    destruct Hpost as (Hinv & Hmono & Hle & Hcl).
    assert (visitedAt g' (x, y) = true) as Hxy.
    { apply Hmono. rewrite Hv2. apply Hv1. right. reflexivity. }
    split; [|exact Hxy].
    split; [exact Hinv|]. split; [|split].
    + intros m Hm. apply Hmono. rewrite Hv2. apply Hv1. left. exact Hm.
    + lia.
    + intros m Hm' Hm. destruct (pos_eq_dec m (x, y)) as [->|Hne].
      * intros d Hd Hdin. apply Hdone; [|exact Hdin]. rewrite Hperm. exact Hd.
      * apply Hcl; [exact Hm'|]. rewrite Hv2.
        destruct (visitedAt g1 m) eqn:Hm1; [|reflexivity].
        apply Hv1 in Hm1 as [Hm1 | Hm1]; congruence.
Qed.

(** * The constructor *)

Lemma allocate_fresh (w h : Z) : 0 <= w -> 0 <= h -> Maze.allocate w h = Ok (fresh w h).
Proof.
  intros Hw Hh. unfold Maze.allocate, new_array, fresh.
  destruct (Z.ltb_spec h 0); [lia|]. simpl.
  destruct (Z.ltb_spec 0 h).
  - destruct (Z.ltb_spec w 0); [lia|]. reflexivity.
  - replace h with 0 by lia. reflexivity.
Qed.

Lemma fresh_shape (w h : Z) : 0 <= w -> 0 <= h -> shape w h (fresh w h).
Proof.
  intros Hw Hh. unfold shape, fresh. split.
  - rewrite length_replicate. lia.
  - apply Forall_replicate. rewrite length_replicate. lia.
Qed.

Lemma fresh_cell (w h x y : Z) (v : Cell.t) :
  Maze.cell (fresh w h) x y = Ok v -> v = Cell.default.
Proof.
  intros (row & [_ Hrow]%index_Ok & [_ Hv]%index_Ok)%cell_Ok.
  apply lookup_replicate_1 in Hrow as [-> _].
  apply lookup_replicate_1 in Hv as [-> _]. reflexivity.
Qed.

Lemma fresh_flags (w h : Z) (m : Pos) :
  wallAt (fresh w h) m = true /\ visitedAt (fresh w h) m = false.
Proof.
  unfold wallAt, visitedAt.
  destruct (Maze.cell (fresh w h) m.1 m.2) as [v|e] eqn:Hv; [|auto].
  apply fresh_cell in Hv as ->. auto.
Qed.

Lemma unvisited_bound (w h : Z) (g : Grid) :
  shape w h g -> (unvisited g <= Z.to_nat (w * h))%nat.
Proof.
  intros [Hlen Hrows]. subst h. unfold unvisited.
  assert (Hrow : forall row : list Cell.t,
    (sum_list_with (fun c => if Cell.visited c then 0 else 1) row <= length row)%nat).
  { induction row as [|c row IH]; simpl; [lia|]. destruct (Cell.visited c); lia. }
  induction Hrows as [|row g Hw Hrows IH]; simpl; [lia|].
  specialize (Hrow row). simpl in IH.
  assert (0 <= w) by lia. nia.
Qed.

Lemma Inv_first (w h : Z) (g : Grid) :
  shape w h g ->
  (forall m, passage g m <-> m = start) ->
  (forall m, visitedAt g m = true <-> m = start) ->
  Inv w h g.
Proof.
  intros Hs Hp Hv. split.
  - exact Hs.
  - apply Hp. reflexivity.
  - intros m ->%Hp. left. exists 0. reflexivity.
  - intros m. rewrite Hv, Hp. split; [|tauto].
    intros ->. split; [reflexivity|]. split; exists 0; reflexivity.
  - intros m k ->%Hp Hadj Hk. exfalso. grid_arith.
  - apply tree_single, Hp.
  - apply (acyclic_single start), Hp.
Qed.

(** Generation on a freshly allocated grid returns, whatever the draws. *)
Lemma generateMaze_runs (w h : Z) (r : Rng) :
  2 <= w -> 2 <= h ->
  exists g' r', Maze.generateMaze w h (fresh w h, r) = Ok (g', r') /\
                Inv w h g' /\
                (forall c, visitedAt g' c = true -> closed w h g' c) /\
                visitedAt g' start = true.
Proof.
  intros Hw Hh. unfold Maze.generateMaze.
  pose proof (fresh_shape w h ltac:(lia) ltac:(lia)) as Hs.
  destruct (generateMazeRecursive_ok w h (S (Z.to_nat (w * h))) 1 1 (fresh w h) r)
    as (g' & r' & Hrun & (Hinv & _ & _ & Hcl) & Hstart).
  - unfold inside. simpl. lia.
  - apply fresh_flags.
  - exact Hs.
  - intros g1 g2 Hg1 Hg2.
    destruct (visit_flags _ _ _ _ Hg1) as (Hw1 & Hv1 & Hs1 & _).
    destruct (carve_flags _ _ _ _ Hg2) as (Hp2 & Hv2 & Hs2 & _).
    apply Inv_first.
    + apply Hs2, Hs1, Hs.
    + intros m. rewrite Hp2. unfold passage. rewrite Hw1.
      destruct (fresh_flags w h m) as [-> _]. unfold start. split; [|tauto].
      intros [? | ?]; [discriminate | assumption].
    + intros m. rewrite Hv2, Hv1.
      destruct (fresh_flags w h m) as [_ ->]. unfold start. split; [|tauto].
      intros [? | ?]; [discriminate | assumption].
  - pose proof (unvisited_bound _ _ _ Hs). lia.
  - exists g', r'. split; [exact Hrun|]. split; [exact Hinv|]. split; [|exact Hstart].
    intros c Hc. apply Hcl; [exact Hc | apply fresh_flags].
Qed.

(** A run that leaves every visited cell closed has visited the whole
    sublattice. *)
Lemma closed_all_visited (w h : Z) (g : Grid) :
  (forall c, visitedAt g c = true -> closed w h g c) ->
  visitedAt g start = true ->
  forall c, sublattice c -> inside w h c -> visitedAt g c = true.
Proof.
  intros Hcl Hstart.
  assert (Hnat : forall i j : nat,
    inside w h (1 + 2 * Z.of_nat i, 1 + 2 * Z.of_nat j) ->
    visitedAt g (1 + 2 * Z.of_nat i, 1 + 2 * Z.of_nat j) = true).
  { assert (Hdown : unit_dir (0, 1)).
    { unfold unit_dir, Maze.directions. rewrite !elem_of_cons. tauto. }
    assert (Hright : unit_dir (1, 0)).
    { unfold unit_dir, Maze.directions. rewrite !elem_of_cons. tauto. }
    induction i as [|i IHi].
    - induction j as [|j IHj]; intros Hin; [exact Hstart|].
      assert ((1 + 2 * Z.of_nat 0, 1 + 2 * Z.of_nat (S j))
              = step (1 + 2 * Z.of_nat 0, 1 + 2 * Z.of_nat j) (0, 1) 2) as Heq
        by (unfold step; simpl; f_equal; lia).
      rewrite Heq in Hin |- *. apply Hcl; [|exact Hdown|exact Hin].
      apply IHj. unfold inside, step in *. simpl in *. lia.
    - intros j Hin.
      assert ((1 + 2 * Z.of_nat (S i), 1 + 2 * Z.of_nat j)
              = step (1 + 2 * Z.of_nat i, 1 + 2 * Z.of_nat j) (1, 0) 2) as Heq
        by (unfold step; simpl; f_equal; lia).
      rewrite Heq in Hin |- *. apply Hcl; [|exact Hright|exact Hin].
      apply IHi. unfold inside, step in *. simpl in *. lia. }
  intros [x y] [[a Ha] [b Hb]] Hin. simpl in *. subst x y.
  unfold inside in Hin. simpl in Hin.
  replace (2 * a + 1) with (1 + 2 * Z.of_nat (Z.to_nat a)) by lia.
  replace (2 * b + 1) with (1 + 2 * Z.of_nat (Z.to_nat b)) by lia.
  apply Hnat. unfold inside. simpl. lia.
Qed.

Lemma Maze_new_runs (w h size : Z) (r : Rng) :
  2 <= w -> 2 <= h ->
  exists g' r' g'',
    Maze.generateMaze w h (fresh w h, r) = Ok (g', r') /\
    Inv w h g' /\
    (forall c, sublattice c -> inside w h c -> visitedAt g' c = true) /\
    Maze.update (Cell.set_isWall false) g' (w - 2) (h - 2) = Ok g'' /\
    Maze.new w h size r = Ok (Maze.mk w h size g'' (w - 2) (h - 2), r').
Proof.
  intros Hw Hh.
  destruct (generateMaze_runs w h r Hw Hh) as (g' & r' & Hgen & Hinv & Hcl & Hstart).
  destruct (update_runs (Cell.set_isWall false) w h g' (w - 2) (h - 2)) as [g'' Hg''].
  { apply Hinv. }
  { unfold inside. simpl. lia. }
  exists g', r', g''. split; [exact Hgen|]. split; [exact Hinv|].
  split; [apply closed_all_visited; assumption|]. split; [exact Hg''|].
  unfold Maze.new. rewrite allocate_fresh by lia. cbn [bind].
  rewrite Hgen. cbn [bind]. rewrite Hg''. reflexivity.
Qed.

Lemma Maze_new_dims (w h size : Z) (r r' : Rng) (m : Maze.t) :
  Maze.new w h size r = Ok (m, r') -> 2 <= w /\ 2 <= h.
Proof.
  unfold Maze.new, Maze.allocate, new_array.
  intros (g & Hg & Hrest)%bind_Ok.
  apply bind_Ok in Hrest as ([g' r1] & Hgen & _).
  unfold Maze.generateMaze in Hgen. cbn [Maze.generateMazeRecursive fst] in Hgen.
  apply bind_Ok in Hgen as (g1 & Hg1 & _).
  apply update_Ok in Hg1 as (v & (row & Hrow & Hv)%cell_Ok & _).
  apply index_range in Hv. apply index_Ok in Hrow as [_ Hrow].
  destruct (Z.ltb_spec h 0); [discriminate|]. cbn [bind] in Hg.
  destruct (Z.ltb_spec 0 h).
  - destruct (Z.ltb_spec w 0); [discriminate|]. cbn [bind] in Hg. injection Hg as <-.
    apply lookup_replicate_1 in Hrow as [-> Hlt]. rewrite length_replicate in Hv. lia.
  - injection Hg as <-. apply lookup_replicate_1 in Hrow as [_ Hlt]. lia.
Qed.

(** What holds of every constructed maze. *)
Lemma constructed_facts (m : Maze.t) :
  constructed m ->
  2 <= Maze.width m /\ 2 <= Maze.height m /\
  shape (Maze.width m) (Maze.height m) (Maze.grid m) /\
  Maze.exitX m = Maze.width m - 2 /\ Maze.exitY m = Maze.height m - 2 /\
  passage (Maze.grid m) start /\
  passage (Maze.grid m) (Maze.exitX m, Maze.exitY m).
Proof.
  intros (w & h & size & r & r' & Hnew).
  destruct (Maze_new_dims _ _ _ _ _ _ Hnew) as [Hw Hh].
  destruct (Maze_new_runs w h size r Hw Hh) as (g' & r1 & g'' & _ & Hinv & _ & Hg'' & Hnew').
  rewrite Hnew' in Hnew. injection Hnew as <- <-. simpl.
  destruct (carve_flags _ _ _ _ Hg'') as (Hp & _ & Hs & _).
  split; [exact Hw|]. split; [exact Hh|]. split; [apply Hs, Hinv|].
  split; [reflexivity|]. split; [reflexivity|]. split.
  - apply Hp. left. apply Hinv.
  - apply Hp. right. reflexivity.
Qed.

Lemma isWall_inside (m : Maze.t) (x y : Z) :
  shape (Maze.width m) (Maze.height m) (Maze.grid m) ->
  inside (Maze.width m) (Maze.height m) (x, y) ->
  exists c, Maze.cell (Maze.grid m) x y = Ok c /\ Maze.isWall m x y = Ok (Cell.isWall c).
Proof.
  intros Hs Hin. destruct (proj1 (shape_cell _ _ _ _ _ Hs) Hin) as [c Hc].
  exists c. split; [exact Hc|]. unfold Maze.isWall.
  apply isInsideGrid_spec in Hin. rewrite Hin, Hc. reflexivity.
Qed.

Lemma isWall_outside (m : Maze.t) (x y : Z) :
  ~ inside (Maze.width m) (Maze.height m) (x, y) -> Maze.isWall m x y = Ok true.
Proof.
  intros Hout. unfold Maze.isWall.
  destruct (Maze.isInsideGrid (Maze.width m) (Maze.height m) x y) eqn:Hin; [|reflexivity].
  apply isInsideGrid_spec in Hin. contradiction.
Qed.

Lemma isWall_wallAt (m : Maze.t) (x y : Z) :
  shape (Maze.width m) (Maze.height m) (Maze.grid m) ->
  Maze.isWall m x y = Ok (wallAt (Maze.grid m) (x, y)).
Proof.
  intros Hs. unfold Maze.isWall, wallAt. simpl.
  destruct (Maze.isInsideGrid (Maze.width m) (Maze.height m) x y) eqn:Hin; simpl.
  - apply isInsideGrid_spec in Hin.
    destruct (proj1 (shape_cell _ _ _ _ _ Hs) Hin) as [c ->]. reflexivity.
  - destruct (Maze.cell (Maze.grid m) x y) as [c|e] eqn:Hc; [|reflexivity].
    assert (inside (Maze.width m) (Maze.height m) (x, y)) as Hin'
      by (apply (shape_cell _ _ _ _ _ Hs); eauto).
    apply isInsideGrid_spec in Hin'. congruence.
Qed.

Lemma update_inside (f : Cell.t -> Cell.t) (w h : Z) (g g' : Grid) (x y : Z) :
  shape w h g -> Maze.update f g x y = Ok g' -> inside w h (x, y).
Proof.
  intros Hs (v & Hv & _)%update_Ok. apply (shape_cell _ _ _ _ _ Hs). eauto.
Qed.

Lemma constructed_demo : constructed demo_maze.
Proof. exists 5, 5, 50, demo_rng. eexists. vm_compute. reflexivity. Qed.

(** * Properties of the program *)

(** C2: for width and height of at least 3 and every random source, the
    constructor returns a maze whose cell (width-2, height-2) is a passage,
    and [isExit] holds of that coordinate and of no other. *)
Theorem exit_is_passage (w h size : Z) (r : Rng) :
  3 <= w -> 3 <= h ->
  exists m r', Maze.new w h size r = Ok (m, r') /\
    Maze.isWall m (w - 2) (h - 2) = Ok false /\
    forall x y, Maze.isExit m x y = true <-> x = w - 2 /\ y = h - 2.
Proof.
  intros Hw Hh.
  destruct (Maze_new_runs w h size r) as (g' & r' & g'' & _ & _ & _ & _ & Hnew); [lia|lia|].
  eexists _, r'. split; [exact Hnew|].
  assert (constructed (Maze.mk w h size g'' (w - 2) (h - 2))) as Hc
    by (exists w, h, size, r, r'; exact Hnew).
  apply constructed_facts in Hc as (_ & _ & Hs & _ & _ & _ & Hexit). simpl in *.
  split.
  - rewrite isWall_wallAt by exact Hs. simpl. f_equal. exact Hexit.
  - intros x y. unfold Maze.isExit. simpl.
    rewrite andb_true_iff, !Z.eqb_eq. reflexivity.
Qed.

Lemma exit_is_passage_witness :
  exists m r', Maze.new 5 5 50 demo_rng = Ok (m, r') /\
    Maze.isWall m (5 - 2) (5 - 2) = Ok false /\
    forall x y, Maze.isExit m x y = true <-> x = 5 - 2 /\ y = 5 - 2.
Proof. apply (exit_is_passage 5 5 50 demo_rng); lia. Defined.

(** C3, as the code has it: the constructor checks no dimension. It returns
    a maze whenever width and height are at least 2; below that it cannot
    complete, because the access to grid[1][1] leaves the allocated grid or
    the allocation of a negative length fails. *)
Theorem no_dimension_check (w h size : Z) (r : Rng) :
  (2 <= w /\ 2 <= h /\ exists m r', Maze.new w h size r = Ok (m, r')) \/
  ((w < 2 \/ h < 2) /\
   (Maze.new w h size r = Err OutOfBounds \/ Maze.new w h size r = Err BadArrayNewLength)).
Proof.
  destruct (Z_lt_le_dec w 2) as [Hw|Hw]; [|destruct (Z_lt_le_dec h 2) as [Hh|Hh]].
  3: { left. split; [exact Hw|]. split; [exact Hh|].
       destruct (Maze_new_runs w h size r Hw Hh) as (g' & r' & g'' & _ & _ & _ & _ & Hnew).
       eauto. }
  all: right; split; [lia|].
  all: unfold Maze.new, Maze.allocate, new_array.
  all: destruct (Z.ltb_spec h 0); [right; reflexivity|]; cbn [bind].
  all: destruct (Z.ltb_spec 0 h); [destruct (Z.ltb_spec w 0); [right; reflexivity|]|].
  all: cbn [bind]; left.
  all: unfold Maze.generateMaze; cbn [Maze.generateMazeRecursive fst].
  all: match goal with
       | |- context [Maze.update ?f ?g 1 1] =>
           rewrite (update_outside f w h g 1 1); [reflexivity| |unfold inside; simpl; lia]
       end.
  all: try (apply fresh_shape; lia).
  all: replace h with 0 by lia; split; [reflexivity | constructor].
Qed.

(** The constructor returns a 2x2 maze: no dimension error is raised. *)
Lemma small_maze_constructed :
  (2 < 3 \/ 2 < 3) /\
  exists m r', Maze.new 2 2 50 demo_rng = Ok (m, r') /\
    Maze.grid m = [[Cell.mk false false; Cell.mk true false];
                   [Cell.mk true false; Cell.mk false true]].
Proof.
  split; [lia|]. eexists _, _. split; vm_compute; reflexivity.
Qed.

(** C4: in a constructed maze [isWall] is true of every coordinate outside
    the grid, and is the stored wall flag of the cell at every coordinate
    inside it. *)
Theorem isWall_reads_grid (m : Maze.t) (x y : Z) :
  constructed m ->
  (x < 0 \/ x >= Maze.width m \/ y < 0 \/ y >= Maze.height m -> Maze.isWall m x y = Ok true) /\
  (0 <= x < Maze.width m -> 0 <= y < Maze.height m ->
   exists c, Maze.cell (Maze.grid m) x y = Ok c /\ Maze.isWall m x y = Ok (Cell.isWall c)).
Proof.
  intros (_ & _ & Hs & _)%constructed_facts. split.
  - intros Hout. apply isWall_outside. unfold inside. simpl. lia.
  - intros Hx Hy. apply isWall_inside; [exact Hs | split; assumption].
Qed.

Lemma isWall_reads_grid_witness :
  constructed demo_maze /\
  Maze.isWall demo_maze (-1) 0 = Ok true /\
  exists c, Maze.cell (Maze.grid demo_maze) 1 1 = Ok c /\
            Maze.isWall demo_maze 1 1 = Ok (Cell.isWall c).
Proof.
  split; [exact constructed_demo|]. split.
  - apply (isWall_reads_grid demo_maze (-1) 0 constructed_demo). lia.
  - apply (isWall_reads_grid demo_maze 1 1 constructed_demo); simpl; lia.
Defined.

(** C7: on a constructed maze [isWall] returns a value at every integer
    coordinate pair ([isExit] is a total function), and a coordinate outside
    the grid is a wall and is not the exit. *)
Theorem queries_never_fail (m : Maze.t) (x y : Z) :
  constructed m ->
  (exists b, Maze.isWall m x y = Ok b) /\
  (exists b, Maze.isExit m x y = b) /\
  (~ inside (Maze.width m) (Maze.height m) (x, y) ->
   Maze.isWall m x y = Ok true /\ Maze.isExit m x y = false).
Proof.
  intros (Hw & Hh & Hs & Hex & Hey & _)%constructed_facts.
  split; [rewrite isWall_wallAt by exact Hs; eauto|]. split; [eauto|].
  intros Hout. split; [apply isWall_outside, Hout|].
  unfold Maze.isExit. apply andb_false_iff.
  rewrite !Z.eqb_neq. unfold inside in Hout. simpl in Hout. lia.
Qed.

Lemma queries_never_fail_witness :
  constructed demo_maze /\
  (exists b, Maze.isWall demo_maze 7 (-2) = Ok b) /\
  (exists b, Maze.isExit demo_maze 7 (-2) = b) /\
  Maze.isWall demo_maze 7 (-2) = Ok true /\ Maze.isExit demo_maze 7 (-2) = false.
Proof.
  split; [exact constructed_demo|].
  destruct (queries_never_fail demo_maze 7 (-2) constructed_demo) as (Hw & He & Hout).
  split; [exact Hw|]. split; [exact He|].
  apply Hout. unfold inside. simpl. lia.
Defined.

(** C10: for width and height of at least 3 every cell access of the
    construction is in bounds. An access of the embedding succeeds only inside
    the grid; the start and the exit are inside; the cell carved between two
    cells inside is inside; and generation, the exit override and with them
    the constructor return without the out-of-bounds error. *)
Theorem construction_in_bounds (w h size : Z) (r : Rng) :
  3 <= w -> 3 <= h ->
  (forall f g g' x y, shape w h g -> Maze.update f g x y = Ok g' -> inside w h (x, y)) /\
  (forall g x y v, shape w h g -> Maze.cell g x y = Ok v -> inside w h (x, y)) /\
  inside w h start /\ inside w h (w - 2, h - 2) /\
  (forall c d, inside w h c -> unit_dir d -> inside w h (step c d 2) ->
               inside w h (step c d 1)) /\
  exists g' r' g'',
    shape w h (fresh w h) /\
    Maze.generateMaze w h (fresh w h, r) = Ok (g', r') /\ shape w h g' /\
    Maze.update (Cell.set_isWall false) g' (w - 2) (h - 2) = Ok g'' /\ shape w h g'' /\
    Maze.new w h size r = Ok (Maze.mk w h size g'' (w - 2) (h - 2), r').
Proof.
  intros Hw Hh.
  split; [intros f g g' x y; apply update_inside|].
  split; [intros g x y v Hs Hv; apply (shape_cell _ _ _ _ _ Hs); eauto|].
  split; [unfold inside; simpl; lia|]. split; [unfold inside; simpl; lia|].
  split.
  - intros [x y] d Hc Hd Hn.
    apply unit_dir_cases in Hd as [-> | [-> | [-> | ->]]]; grid_arith.
  - destruct (Maze_new_runs w h size r) as (g' & r' & g'' & Hgen & Hinv & _ & Hg'' & Hnew);
      [lia|lia|].
    destruct (carve_flags _ _ _ _ Hg'') as (_ & _ & Hs & _).
    exists g', r', g''. split; [apply fresh_shape; lia|].
    split; [exact Hgen|]. split; [apply Hinv|]. split; [exact Hg''|].
    split; [apply Hs, Hinv | exact Hnew].
Qed.

Lemma construction_in_bounds_witness :
  exists g' r' g'',
    shape 5 5 (fresh 5 5) /\
    Maze.generateMaze 5 5 (fresh 5 5, demo_rng) = Ok (g', r') /\ shape 5 5 g' /\
    Maze.update (Cell.set_isWall false) g' (5 - 2) (5 - 2) = Ok g'' /\ shape 5 5 g'' /\
    Maze.new 5 5 50 demo_rng = Ok (Maze.mk 5 5 50 g'' (5 - 2) (5 - 2), r').
Proof. apply (construction_in_bounds 5 5 50 demo_rng); lia. Defined.

Section PlayerClaims.

Context {T : Type} `{Clock T}.

Lemma move_blocked (p : Player.t T) (now : T) (dx dy : Z) (maze : Maze.t) :
  tge (tsub now (Player.lastMoveTime p)) (Player.moveCooldown p) = false ->
  Player.move now dx dy maze p = Ok p.
Proof. intros Hge. unfold Player.move. rewrite Hge. reflexivity. Qed.

Lemma move_keeps_passage (m : Maze.t) (p : Player.t T) (now : T) (dx dy : Z) :
  shape (Maze.width m) (Maze.height m) (Maze.grid m) ->
  Maze.isWall m (Player.x p) (Player.y p) = Ok false ->
  exists p', Player.move now dx dy m p = Ok p' /\
             Maze.isWall m (Player.x p') (Player.y p') = Ok false.
Proof.
  intros Hs Hp. unfold Player.move.
  destruct (tge (tsub now (Player.lastMoveTime p)) (Player.moveCooldown p)); [|eauto].
  rewrite (isWall_wallAt m (Player.x p + dx) (Player.y p + dy) Hs). cbn [bind].
  destruct (wallAt (Maze.grid m) (Player.x p + dx, Player.y p + dy)) eqn:Hwall;
    eexists; (split; [reflexivity|]); simpl.
  - exact Hp.
  - rewrite isWall_wallAt by exact Hs. rewrite Hwall. reflexivity.
Qed.

(** C5: once the cooldown has elapsed, a move into a wall (a cell outside
    the grid counts as one) leaves the position as it was and sets
    [lastMoveTime] to the current time; an attempt that follows within the
    cooldown, in any direction, changes nothing. *)
Theorem bump_consumes_cooldown (p : Player.t T) (now : T) (dx dy : Z) (maze : Maze.t) :
  tge (tsub now (Player.lastMoveTime p)) (Player.moveCooldown p) = true ->
  Maze.isWall maze (Player.x p + dx) (Player.y p + dy) = Ok true ->
  let p' := Player.mk (Player.x p) (Player.y p) (Player.cellSize p)
                      (Player.moveCooldown p) now in
  Player.move now dx dy maze p = Ok p' /\
  forall later dx' dy' maze',
    tlt (tsub later now) (Player.moveCooldown p) = true ->
    Player.move later dx' dy' maze' p' = Ok p'.
Proof.
  intros Hge Hwall p'. split.
  - unfold Player.move. rewrite Hge, Hwall. reflexivity.
  - intros later dx' dy' maze' Hlt. apply move_blocked. simpl.
    apply tlt_tge, Hlt.
Qed.

(** C6: while less than the cooldown has elapsed since the last move, a
    move attempt returns the player state unchanged, whatever the direction
    and the maze. *)
Theorem early_move_changes_nothing (p : Player.t T) (now : T) (dx dy : Z) (maze : Maze.t) :
  tlt (tsub now (Player.lastMoveTime p)) (Player.moveCooldown p) = true ->
  Player.move now dx dy maze p = Ok p.
Proof. intros Hlt. apply move_blocked, tlt_tge, Hlt. Qed.

(** C8: in a constructed maze a player that starts at (1,1) stands on a
    passage after any sequence of move attempts, and each call of [move]
    from a passage ends on a passage. *)
Theorem player_stays_on_passages (m : Maze.t) (size : Z) (cooldown zero : T)
    (attempts : list (T * Z * Z)) :
  constructed m ->
  (exists p, Player.moves attempts m (Player.new 1 1 size cooldown zero) = Ok p /\
             Maze.isWall m (Player.x p) (Player.y p) = Ok false) /\
  (forall p now dx dy,
     Maze.isWall m (Player.x p) (Player.y p) = Ok false ->
     exists p', Player.move now dx dy m p = Ok p' /\
                Maze.isWall m (Player.x p') (Player.y p') = Ok false).
Proof.
  intros (_ & _ & Hs & _ & _ & Hstart & _)%constructed_facts.
  split; [|intros p now dx dy; apply move_keeps_passage, Hs].
  assert (Hfrom : forall p, Maze.isWall m (Player.x p) (Player.y p) = Ok false ->
            exists p', Player.moves attempts m p = Ok p' /\
                       Maze.isWall m (Player.x p') (Player.y p') = Ok false).
  { induction attempts as [|[[now dx] dy] rest IH]; intros p Hp; simpl; [eauto|].
    destruct (move_keeps_passage m p now dx dy Hs Hp) as (p1 & -> & Hp1).
    cbn [bind]. apply IH, Hp1. }
  apply Hfrom. simpl. rewrite isWall_wallAt by exact Hs. f_equal. exact Hstart.
Qed.

End PlayerClaims.

Lemma bump_consumes_cooldown_witness :
  let p := Player.new 1 1 50 200 0 in
  let p' := Player.mk 1 1 50 200 300 in
  Player.move 300 0 (-1) demo_maze p = Ok p' /\
  Player.move 400 1 0 demo_maze p' = Ok p'.
Proof.
  intros p p'.
  destruct (bump_consumes_cooldown p 300 0 (-1) demo_maze) as [Hmove Hnext];
    [reflexivity | reflexivity |].
  split; [exact Hmove|]. apply (Hnext 400 1 0 demo_maze). reflexivity.
Defined.

Lemma early_move_changes_nothing_witness :
  Player.move 100 1 0 demo_maze (Player.new 1 1 50 200 0) = Ok (Player.new 1 1 50 200 0).
Proof. apply (early_move_changes_nothing (Player.new 1 1 50 200 0) 100 1 0 demo_maze). reflexivity. Defined.

Lemma player_stays_on_passages_witness :
  exists p, Player.moves [(300, 0, 1); (350, 1, 0); (600, 0, 1); (900, 1, 0)] demo_maze
              (Player.new 1 1 50 200 0) = Ok p /\
            Maze.isWall demo_maze (Player.x p) (Player.y p) = Ok false.
Proof.
  apply (player_stays_on_passages demo_maze 50 200 0
           [(300, 0, 1); (350, 1, 0); (600, 0, 1); (900, 1, 0)] constructed_demo).
Defined.

Lemma passage_inside (w h : Z) (g : Grid) (c : Pos) :
  shape w h g -> passage g c -> inside w h c.
Proof.
  intros Hs Hc. unfold passage, wallAt in Hc. destruct c as [x y]. simpl in Hc.
  destruct (Maze.cell g x y) as [v|e] eqn:Hv; [|discriminate].
  apply (shape_cell _ _ _ _ _ Hs). eauto.
Qed.

(** ** The exit override and the tree *)

(** With an odd width and an odd height the exit is a sublattice cell, which
    generation has already opened: the constructed maze is the generated one,
    and its passages are a tree. *)
Lemma constructed_odd_is_tree (w h size : Z) (r : Rng) :
  3 <= w -> 3 <= h -> Z.Odd w -> Z.Odd h ->
  exists m r', Maze.new w h size r = Ok (m, r') /\
    tree_to start (passage (Maze.grid m)) /\ acyclic (passage (Maze.grid m)).
Proof.
  intros Hw Hh [a Ha] [b Hb].
  destruct (Maze_new_runs w h size r) as (g' & r' & g'' & _ & Hinv & Hall & Hg'' & Hnew);
    [lia|lia|].
  eexists _, r'. split; [exact Hnew|]. simpl.
  destruct (carve_flags _ _ _ _ Hg'') as (Hp & _).
  assert (Hsame : forall c, passage g' c <-> passage g'' c).
  { intros c. rewrite Hp. split; [tauto|]. intros [Hc | ->]; [exact Hc|].
    apply (inv_visited _ _ _ Hinv), Hall.
    - split; simpl; [exists (a - 1) | exists (b - 1)]; lia.
    - unfold inside. simpl. lia. }
  split.
  - exact (tree_to_ext _ _ _ Hsame (inv_tree _ _ _ Hinv)).
  - exact (acyclic_ext _ _ Hsame (inv_acyclic _ _ _ Hinv)).
Qed.

(** With an even width or height the exit lies off the sublattice, and
    opening it can join two branches of the tree: in this 4x4 maze, which the
    constructor returns, the cell (3,3) is a sublattice cell that generation
    has reached, and it has two different paths to the start. *)
Lemma exit_override_second_path :
  exists m r', Maze.new 4 4 50 demo_rng = Ok (m, r') /\
    3 <= Maze.width m /\ 3 <= Maze.height m /\
    sublattice (3, 3) /\ visitedAt (Maze.grid m) (3, 3) = true /\
    route (Maze.grid m) (3, 3) start [(3, 3); (2, 3); (1, 3); (1, 2); (1, 1)] /\
    route (Maze.grid m) (3, 3) start [(3, 3); (3, 2); (2, 2); (1, 2); (1, 1)] /\
    [(3, 3); (2, 3); (1, 3); (1, 2); (1, 1)] <> [(3, 3); (3, 2); (2, 2); (1, 2); (1, 1)] /\
    ~ (exists l, route (Maze.grid m) (3, 3) start l /\
                 forall l', route (Maze.grid m) (3, 3) start l' -> l' = l).
Proof.
  eexists _, _. split; [vm_compute; reflexivity|].
  split; [simpl; lia|]. split; [simpl; lia|].
  split; [split; exists 1; reflexivity|].
  split; [vm_compute; reflexivity|].
  match goal with |- ?R1 /\ ?R2 /\ _ => assert R1 as Hr1; [|assert R2 as Hr2] end.
  1, 2: split; [|refine (bool_decide_unpack _ _); vm_compute; exact I];
    repeat match goal with
           | |- walk _ _ ?a [?a] => apply walk_end; vm_compute; reflexivity
           | |- walk _ _ ?a (?a :: ?b :: ?l) =>
               apply (walk_step _ _ a b (b :: l));
               [vm_compute; reflexivity | vm_compute; reflexivity |]
           end.
  split; [exact Hr1|]. split; [exact Hr2|].
  assert ([(3, 3); (2, 3); (1, 3); (1, 2); (1, 1)] <>
          [(3, 3); (3, 2); (2, 2); (1, 2); (1, 1)] :> list Pos) as Hne by discriminate.
  split; [exact Hne|].
  intros (l & _ & Huniq). apply Hne.
  rewrite (Huniq _ Hr1), (Huniq _ Hr2). reflexivity.
Qed.

(** C1: for width and height of at least 3 and every random source, the
    constructor returns a maze whose passages are those generation has carved
    and the exit cell.  In it the start cell (1,1) is a passage, the cells
    generation has reached are the sublattice cells inside the grid, and each
    of them has a passage path to the start that repeats no cell.  As
    generation leaves the grid, before the exit is forced open, every passage
    cell has exactly one such path and no passage cells form a cycle.  The
    constructed maze keeps both whenever the exit cell was a passage already,
    as it is with an odd width and an odd height. *)
Theorem constructed_maze_tree (w h size : Z) (r : Rng) :
  3 <= w -> 3 <= h ->
  exists g' m r',
    Maze.generateMaze w h (fresh w h, r) = Ok (g', r') /\
    Maze.new w h size r = Ok (m, r') /\
    (forall c, passage (Maze.grid m) c <-> passage g' c \/ c = (w - 2, h - 2)) /\
    (forall c, visitedAt (Maze.grid m) c = visitedAt g' c) /\
    passage (Maze.grid m) start /\
    (forall c, visitedAt (Maze.grid m) c = true <-> sublattice c /\ inside w h c) /\
    (forall c, visitedAt (Maze.grid m) c = true ->
       passage (Maze.grid m) c /\ exists l, route (Maze.grid m) c start l) /\
    (forall c, passage g' c ->
       exists l, route g' c start l /\ forall l', route g' c start l' -> l' = l) /\
    acyclic (passage g') /\
    (passage g' (w - 2, h - 2) \/ (Z.Odd w /\ Z.Odd h) ->
       (forall c, passage (Maze.grid m) c ->
          exists l, route (Maze.grid m) c start l /\
                    forall l', route (Maze.grid m) c start l' -> l' = l) /\
       acyclic (passage (Maze.grid m))).
Proof.
  intros Hw Hh.
  destruct (Maze_new_runs w h size r) as (g' & r' & g'' & Hgen & Hinv & Hall & Hg'' & Hnew);
    [lia|lia|].
  eexists g', _, r'. split; [exact Hgen|]. split; [exact Hnew|]. simpl.
  destruct (carve_flags _ _ _ _ Hg'') as (Hp & Hv & _).
  assert (Hlift : forall c, passage g' c -> exists l, route g'' c start l).
  { intros c Hc. destruct (inv_tree _ _ _ Hinv c Hc) as (l & [Hl Hnd] & _).
    exists l. split; [|exact Hnd].
    apply (walk_change (passage g')); [exact Hl|].
    eapply Forall_impl; [exact (walk_Forall _ _ _ _ Hl)|].
    intros a Ha. apply Hp. auto. }
  split; [exact Hp|]. split; [exact Hv|].
  split; [apply Hp; left; apply Hinv|].
  split; [|split; [|split; [|split]]].
  - intros c. rewrite Hv. split.
    + intros [Hc Hsub]%(inv_visited _ _ _ Hinv). split; [exact Hsub|].
      eapply passage_inside; [apply Hinv | exact Hc].
    + intros [Hsub Hin]. apply Hall; assumption.
  - intros c. rewrite Hv. intros [Hc _]%(inv_visited _ _ _ Hinv).
    split; [apply Hp; auto | apply Hlift, Hc].
  - intros c Hc. exact (inv_tree _ _ _ Hinv c Hc).
  - apply Hinv.
  - intros Hexit.
    assert (Hsame : forall c, passage g' c <-> passage g'' c).
    { intros c. rewrite Hp. split; [tauto|]. intros [Hc | ->]; [exact Hc|].
      destruct Hexit as [He | [[a Ha] [b Hb]]]; [exact He|].
      apply (inv_visited _ _ _ Hinv), Hall.
      - split; simpl; [exists (a - 1) | exists (b - 1)]; lia.
      - unfold inside. simpl. lia. }
    split.
    + exact (tree_to_ext _ _ _ Hsame (inv_tree _ _ _ Hinv)).
    + exact (acyclic_ext _ _ Hsame (inv_acyclic _ _ _ Hinv)).
Qed.

Lemma constructed_maze_tree_witness :
  exists g' m r',
    Maze.generateMaze 6 5 (fresh 6 5, demo_rng) = Ok (g', r') /\
    Maze.new 6 5 50 demo_rng = Ok (m, r') /\
    (forall c, passage (Maze.grid m) c <-> passage g' c \/ c = (6 - 2, 5 - 2)) /\
    (forall c, visitedAt (Maze.grid m) c = visitedAt g' c) /\
    passage (Maze.grid m) start /\
    (forall c, visitedAt (Maze.grid m) c = true <-> sublattice c /\ inside 6 5 c) /\
    (forall c, visitedAt (Maze.grid m) c = true ->
       passage (Maze.grid m) c /\ exists l, route (Maze.grid m) c start l) /\
    (forall c, passage g' c ->
       exists l, route g' c start l /\ forall l', route g' c start l' -> l' = l) /\
    acyclic (passage g') /\
    (passage g' (6 - 2, 5 - 2) \/ (Z.Odd 6 /\ Z.Odd 5) ->
       (forall c, passage (Maze.grid m) c ->
          exists l, route (Maze.grid m) c start l /\
                    forall l', route (Maze.grid m) c start l' -> l' = l) /\
       acyclic (passage (Maze.grid m))).
Proof. apply (constructed_maze_tree 6 5 50 demo_rng); lia. Defined.

(** C9: draws [j0..j3] with [i <= ji <= 3] turn the four directions into a
    permutation of themselves, and so does the shuffle on every random
    source; the 24 draw sequences of [scripts] are all there are, and under
    independent uniform draws every order [p] of the four directions comes
    out with probability 1/24. *)
Theorem shuffle_is_uniform (j0 j1 j2 j3 : Z) (p : list Dir) (r : Rng) :
  0 <= j0 <= 3 -> 1 <= j1 <= 3 -> 2 <= j2 <= 3 -> 3 <= j3 <= 3 ->
  p ≡ₚ Maze.directions ->
  (exists d, Maze.shuffle scripted 4 0 Maze.directions [j0; j1; j2; j3] = Ok (d, []) /\
             d ≡ₚ Maze.directions) /\
  (exists d r', Maze.shuffle GetRandomValue 4 0 Maze.directions r = Ok (d, r') /\
                d ≡ₚ Maze.directions) /\
  [j0; j1; j2; j3] ∈ scripts /\ NoDup scripts /\ length scripts = 24%nat /\
  length (permutations Maze.directions) = 24%nat /\
  Qeq (shuffle_probability p) (1 # 24)%Q.
Proof.
  intros H0 H1 H2 H3 Hp.
  assert (j0 = 0 \/ j0 = 1 \/ j0 = 2 \/ j0 = 3) as H0' by lia.
  assert (j1 = 1 \/ j1 = 2 \/ j1 = 3) as H1' by lia.
  assert (j2 = 2 \/ j2 = 3) as H2' by lia.
  assert (j3 = 3) as -> by lia.
  split; [|split; [apply shuffle_directions|]].
  2: split; [|split; [|split; [reflexivity|split; [reflexivity|]]]].
  - destruct H0' as [-> | [-> | [-> | ->]]]; destruct H1' as [-> | [-> | ->]];
      destruct H2' as [-> | ->];
      (eexists; split; [reflexivity | solve_Permutation]).
  - destruct H0' as [-> | [-> | [-> | ->]]]; destruct H1' as [-> | [-> | ->]];
      destruct H2' as [-> | ->]; vm_compute;
      repeat first [apply list_elem_of_here | apply list_elem_of_further].
  - refine (bool_decide_unpack _ _). vm_compute. exact I.
  - symmetry in Hp. apply permutations_Permutation in Hp. vm_compute in Hp.
    repeat (apply elem_of_cons in Hp as [-> | Hp]; [vm_compute; reflexivity|]).
    apply elem_of_nil in Hp. contradiction.
Qed.

Lemma shuffle_is_uniform_witness :
  (exists d, Maze.shuffle scripted 4 0 Maze.directions [2; 1; 3; 3] = Ok (d, []) /\
             d ≡ₚ Maze.directions) /\
  (exists d r', Maze.shuffle GetRandomValue 4 0 Maze.directions demo_rng = Ok (d, r') /\
                d ≡ₚ Maze.directions) /\
  [2; 1; 3; 3] ∈ scripts /\ NoDup scripts /\ length scripts = 24%nat /\
  length (permutations Maze.directions) = 24%nat /\
  Qeq (shuffle_probability [(1, 0); (-1, 0); (0, 1); (0, -1)]) (1 # 24)%Q.
Proof.
  apply (shuffle_is_uniform 2 1 3 3 [(1, 0); (-1, 0); (0, 1); (0, -1)] demo_rng); try lia.
  unfold Maze.directions. solve_Permutation.
Defined.

(** * More on the constructed maze *)

(** A constructed maze is the generated grid with the exit opened. *)
Lemma constructed_generated (m : Maze.t) :
  constructed m ->
  Maze.exitX m = Maze.width m - 2 /\ Maze.exitY m = Maze.height m - 2 /\
  shape (Maze.width m) (Maze.height m) (Maze.grid m) /\
  exists g', Inv (Maze.width m) (Maze.height m) g' /\
    (forall c, sublattice c -> inside (Maze.width m) (Maze.height m) c ->
               visitedAt g' c = true) /\
    (forall c, passage (Maze.grid m) c <-> passage g' c \/ c = (Maze.exitX m, Maze.exitY m)).
Proof.
  intros (w & h & size & r & r' & Hnew).
  destruct (Maze_new_dims _ _ _ _ _ _ Hnew) as [Hw Hh].
  destruct (Maze_new_runs w h size r Hw Hh) as (g' & r1 & g'' & _ & Hinv & Hall & Hg'' & Hnew').
  rewrite Hnew' in Hnew. injection Hnew as <- <-. simpl.
  destruct (carve_flags _ _ _ _ Hg'') as (Hp & _ & Hs & _).
  split; [reflexivity|]. split; [reflexivity|]. split; [apply Hs, Hinv|].
  exists g'. split; [exact Hinv|]. split; [exact Hall | exact Hp].
Qed.

Lemma walk_snoc (P : Pos -> Prop) (b b' a : Pos) (l : list Pos) :
  walk P b a l -> P b' -> adjacent b b' -> walk P b' a (l ++ [b']).
Proof.
  intros Hw Hb' Hadj. induction Hw as [Hb|a a' l Ha Haa' Hw IH]; simpl.
  - eapply walk_step; [exact Hb | exact Hadj | apply walk_end, Hb'].
  - eapply walk_step; eauto.
Qed.

(** A path read backwards is a path. *)
Lemma walk_reverse (P : Pos -> Prop) (b a : Pos) (l : list Pos) :
  walk P b a l -> walk P a b (reverse l).
Proof.
  induction 1 as [Hb|a a' l Ha Haa' Hw IH].
  - apply walk_end, Hb.
  - rewrite reverse_cons. apply (walk_snoc P a'); [exact IH | exact Ha|].
    apply adjacent_sym, Haa'.
Qed.

Lemma route_reverse (g : Grid) (a b : Pos) (l : list Pos) :
  route g a b l -> route g b a (reverse l).
Proof.
  intros [Hw Hnd]. split; [apply walk_reverse, Hw | rewrite reverse_Permutation; exact Hnd].
Qed.

Lemma walk_mono (P Q : Pos -> Prop) (b a : Pos) (l : list Pos) :
  (forall c, P c -> Q c) -> walk P b a l -> walk Q b a l.
Proof.
  intros HPQ Hw. apply (walk_change P); [exact Hw|].
  eapply Forall_impl; [exact (walk_Forall _ _ _ _ Hw) | exact HPQ].
Qed.

(** In the generated grid the passages keep off the border that has no
    sublattice cell beyond it. *)
Lemma Inv_border (w h : Z) (g : Grid) (c : Pos) :
  Inv w h g -> passage g c ->
  1 <= fst c /\ 1 <= snd c /\
  (Z.Odd w -> fst c <= w - 2) /\ (Z.Odd h -> snd c <= h - 2).
Proof.
  intros Hinv Hc.
  pose proof (passage_inside _ _ _ _ (inv_shape _ _ _ Hinv) Hc) as Hin.
  pose proof (inv_parity _ _ _ Hinv c Hc) as Hpar.
  assert (Hout : forall n, adjacent c n -> sublattice n -> inside w h n).
  { intros n Hadj Hn. apply (passage_inside _ _ g); [apply Hinv|].
    apply (inv_visited _ _ _ Hinv), (inv_joint _ _ _ Hinv c); assumption. }
  destruct c as [x y]. simpl in *.
  assert (Hx : Z.Odd x \/ Z.Even x) by (destruct (Z.Even_or_Odd x); auto).
  assert (Hy : Z.Odd y \/ Z.Even y) by (destruct (Z.Even_or_Odd y); auto).
  split; [|split; [|split]].
  - destruct (Z.eq_dec x 0) as [->|]; [|unfold inside in Hin; simpl in Hin; lia].
    destruct Hpar as [[k Hk] | [k Hk]]; [lia|].
    specialize (Hout (-1, y)). unfold adjacent, sublattice, inside in Hout. simpl in Hout.
    destruct Hout as [Hout _]; [lia | split; [exists (-1); lia | exists k; lia] | lia].
  - destruct (Z.eq_dec y 0) as [->|]; [|unfold inside in Hin; simpl in Hin; lia].
    destruct Hpar as [[k Hk] | [k Hk]]; [|lia].
    specialize (Hout (x, -1)). unfold adjacent, sublattice, inside in Hout. simpl in Hout.
    destruct Hout as [_ Hout]; [lia | split; [exists k; lia | exists (-1); lia] | lia].
  - intros [kw Hkw].
    destruct (Z.eq_dec x (w - 1)) as [->|]; [|unfold inside in Hin; simpl in Hin; lia].
    destruct Hpar as [[k Hk] | [k Hk]]; [lia|].
    specialize (Hout (w, y)). unfold adjacent, sublattice, inside in Hout. simpl in Hout.
    destruct Hout as [Hout _]; [lia | split; [exists kw; lia | exists k; lia] | lia].
  - intros [kh Hkh].
    destruct (Z.eq_dec y (h - 1)) as [->|]; [|unfold inside in Hin; simpl in Hin; lia].
    destruct Hpar as [[k Hk] | [k Hk]]; [|lia].
    specialize (Hout (x, h)). unfold adjacent, sublattice, inside in Hout. simpl in Hout.
    destruct Hout as [_ Hout]; [lia | split; [exists k; lia | exists kh; lia] | lia].
Qed.

(** X1: in a constructed maze of width and height at least 3 the top row
    and the left column are walls; with an odd width so is the right column,
    and with an odd height the bottom row. With an even width the right
    column is open at (width-1, 1), and with an even height the bottom row at
    (1, height-1). *)
Theorem border_walls (m : Maze.t) (x y : Z) :
  constructed m -> 3 <= Maze.width m -> 3 <= Maze.height m ->
  (Maze.isWall m x y = Ok false ->
   1 <= x /\ 1 <= y /\
   (Z.Odd (Maze.width m) -> x <= Maze.width m - 2) /\
   (Z.Odd (Maze.height m) -> y <= Maze.height m - 2)) /\
  (Z.Even (Maze.width m) -> Maze.isWall m (Maze.width m - 1) 1 = Ok false) /\
  (Z.Even (Maze.height m) -> Maze.isWall m 1 (Maze.height m - 1) = Ok false).
Proof.
  intros (Hex & Hey & Hs & g' & Hinv & Hall & Hp)%constructed_generated Hw Hh.
  assert (Hopen : forall c, sublattice c -> inside (Maze.width m) (Maze.height m) c ->
                    Maze.isWall m (fst c) (snd c) = Ok false).
  { intros [cx cy] Hsub Hin. simpl. rewrite isWall_wallAt by exact Hs. f_equal.
    apply Hp. left. apply (inv_visited _ _ _ Hinv), Hall; assumption. }
  split; [|split].
  - rewrite isWall_wallAt by exact Hs. intros [= Hxy].
    apply Hp in Hxy as [Hxy | [= -> ->]].
    + exact (Inv_border _ _ _ _ Hinv Hxy).
    + rewrite Hex, Hey. lia.
  - intros [k Hk]. apply (Hopen (Maze.width m - 1, 1)).
    + split; simpl; [exists (k - 1); lia | exists 0; lia].
    + unfold inside. simpl. lia.
  - intros [k Hk]. apply (Hopen (1, Maze.height m - 1)).
    + split; simpl; [exists 0; lia | exists (k - 1); lia].
    + unfold inside. simpl. lia.
Qed.

(** Opening one more cell next to a passage keeps every cell joined to the
    start. *)
Lemma route_through (g gm : Grid) (e a : Pos) (l : list Pos) :
  (forall c, passage gm c <-> passage g c \/ c = e) ->
  ~ passage g e -> adjacent e a ->
  walk (passage g) start a l -> NoDup l ->
  route gm e start (e :: l).
Proof.
  intros Hp He Hadj Hw Hnd. split.
  - eapply walk_step; [apply Hp; auto | exact Hadj |].
    apply (walk_mono (passage g)); [|exact Hw]. intros c Hc. apply Hp. auto.
  - apply NoDup_cons. split; [|exact Hnd].
    intros Hin. apply He.
    pose proof (walk_Forall _ _ _ _ Hw) as HF. rewrite Forall_forall in HF. auto.
Qed.

Lemma exit_joined (w h : Z) (g gm : Grid) :
  3 <= w -> 3 <= h -> Inv w h g ->
  (forall c, sublattice c -> inside w h c -> visitedAt g c = true) ->
  (forall c, passage gm c <-> passage g c \/ c = (w - 2, h - 2)) ->
  exists l, route gm (w - 2, h - 2) start l.
Proof.
  intros Hw Hh Hinv Hall Hp.
  assert (Hsub : forall c, sublattice c -> inside w h c ->
            exists l, walk (passage g) start c l /\ NoDup l).
  { intros c Hc Hin.
    destruct (inv_tree _ _ _ Hinv c) as (l & Hl & _); [|eauto].
    apply (inv_visited _ _ _ Hinv), Hall; assumption. }
  destruct (wallAt g (w - 2, h - 2)) eqn:He.
  2: { destruct (inv_tree _ _ _ Hinv (w - 2, h - 2) He) as (l & [Hl Hnd] & _).
       exists l. split; [|exact Hnd].
       apply (walk_mono (passage g)); [|exact Hl]. intros c Hc. apply Hp. auto. }
  assert (~ passage g (w - 2, h - 2)) as Hwall by (unfold passage; congruence).
  destruct (Z.Even_or_Odd w) as [[kw Hkw] | [kw Hkw]];
    destruct (Z.Even_or_Odd h) as [[kh Hkh] | [kh Hkh]].
  - (* the exit is a pillar: go through the corner cell *)
    destruct (Hsub (w - 1, h - 1)) as (l & Hl & Hnd).
    { split; simpl; [exists (kw - 1); lia | exists (kh - 1); lia]. }
    { unfold inside. simpl. lia. }
    inversion Hl as [Hb Hroot Hl0|k a' l2 Hk Hadj Hw2 Hk0 Hl0]; subst.
    + lia.
    + destruct (walk_head _ _ _ _ Hw2) as [l3 ->].
      pose proof (walk_Forall _ _ _ _ Hw2) as HF. apply Forall_cons in HF as [Ha' _].
      pose proof (passage_inside _ _ _ _ (inv_shape _ _ _ Hinv) Ha') as Hin.
      apply NoDup_cons in Hnd as [_ Hnd].
      eexists. apply (route_through g gm _ a'); eauto.
      destruct a' as [ax ay]. unfold adjacent, inside in *. simpl in *. lia.
  - destruct (Hsub (w - 3, h - 2)) as (l & Hl & Hnd).
    { split; simpl; [exists (kw - 2); lia | exists (kh - 1); lia]. }
    { unfold inside. simpl. lia. }
    eexists. apply (route_through g gm _ (w - 3, h - 2)); eauto.
    unfold adjacent. simpl. lia.
  - destruct (Hsub (w - 2, h - 3)) as (l & Hl & Hnd).
    { split; simpl; [exists (kw - 1); lia | exists (kh - 2); lia]. }
    { unfold inside. simpl. lia. }
    eexists. apply (route_through g gm _ (w - 2, h - 3)); eauto.
    unfold adjacent. simpl. lia.
  - exfalso. apply Hwall. apply (inv_visited _ _ _ Hinv), Hall.
    + split; simpl; [exists (kw - 1); lia | exists (kh - 1); lia].
    + unfold inside. simpl. lia.
Qed.

Lemma start_to_exit (m : Maze.t) :
  constructed m -> 3 <= Maze.width m -> 3 <= Maze.height m ->
  exists l, route (Maze.grid m) start (Maze.exitX m, Maze.exitY m) l.
Proof.
  intros (Hex & Hey & Hs & g' & Hinv & Hall & Hp)%constructed_generated Hw Hh.
  rewrite Hex, Hey in *.
  destruct (exit_joined _ _ g' (Maze.grid m) Hw Hh Hinv Hall Hp) as [le Hle].
  exists (reverse le). apply route_reverse, Hle.
Qed.

(** X2: in a constructed maze of width and height at least 3 every passage
    cell can be reached from the start (1,1) along passages, and so can the
    exit: forcing the exit open never leaves it cut off. *)
Theorem exit_reachable (m : Maze.t) :
  constructed m -> 3 <= Maze.width m -> 3 <= Maze.height m ->
  (forall x y, Maze.isWall m x y = Ok false ->
               exists l, route (Maze.grid m) start (x, y) l) /\
  exists l, route (Maze.grid m) start (Maze.exitX m, Maze.exitY m) l.
Proof.
  intros (Hex & Hey & Hs & g' & Hinv & Hall & Hp)%constructed_generated Hw Hh.
  rewrite Hex, Hey in *.
  destruct (exit_joined _ _ g' (Maze.grid m) Hw Hh Hinv Hall Hp) as [le Hle].
  split; [|exists (reverse le); apply route_reverse, Hle].
  intros x y. rewrite isWall_wallAt by exact Hs. intros [= Hxy].
  apply Hp in Hxy as [Hxy | ->].
  - destruct (inv_tree _ _ _ Hinv (x, y) Hxy) as (l & [Hl Hnd] & _).
    exists (reverse l). apply route_reverse. split; [|exact Hnd].
    apply (walk_mono (passage g')); [|exact Hl]. intros c Hc. apply Hp. auto.
  - exists (reverse le). apply route_reverse, Hle.
Qed.

Lemma exit_reachable_witness :
  exists l, route (Maze.grid demo_maze) start (Maze.exitX demo_maze, Maze.exitY demo_maze) l.
Proof. apply (exit_reachable demo_maze constructed_demo); simpl; lia. Defined.

Lemma border_walls_witness :
  Maze.isWall demo_maze 3 1 = Ok false /\
  1 <= 3 /\ 1 <= 1 /\
  (Z.Odd (Maze.width demo_maze) -> 3 <= Maze.width demo_maze - 2) /\
  (Z.Odd (Maze.height demo_maze) -> 1 <= Maze.height demo_maze - 2).
Proof.
  assert (Maze.isWall demo_maze 3 1 = Ok false) as Hopen by reflexivity.
  split; [exact Hopen|].
  apply (border_walls demo_maze 3 1 constructed_demo); [simpl; lia | simpl; lia | exact Hopen].
Defined.

Section Winning.

Context {T : Type} `{Clock T}.

Lemma move_accepted (p : Player.t T) (now : T) (dx dy : Z) (maze : Maze.t) :
  tge (tsub now (Player.lastMoveTime p)) (Player.moveCooldown p) = true ->
  Maze.isWall maze (Player.x p + dx) (Player.y p + dy) = Ok false ->
  Player.move now dx dy maze p =
  Ok (Player.mk (Player.x p + dx) (Player.y p + dy) (Player.cellSize p)
                (Player.moveCooldown p) now).
Proof. intros Hge Hopen. unfold Player.move. rewrite Hge, Hopen. reflexivity. Qed.

Lemma adjacent_unit (a b : Pos) :
  adjacent a b -> unit_dir (fst b - fst a, snd b - snd a).
Proof.
  destruct a as [ax ay], b as [bx by_]. unfold adjacent, unit_dir, Maze.directions. simpl.
  intros Hadj. rewrite !elem_of_cons.
  assert ((bx - ax = 0 /\ by_ - ay = -1) \/ (bx - ax = 0 /\ by_ - ay = 1) \/
          (bx - ax = -1 /\ by_ - ay = 0) \/ (bx - ax = 1 /\ by_ - ay = 0)) as Hd by lia.
  destruct Hd as [[-> ->] | [[-> ->] | [[-> ->] | [-> ->]]]]; auto.
Qed.

(** The player can walk any passage path, one accepted move per step: the
    directions are those of the path, and any times spaced by the player's
    cooldown will do. *)
Lemma follow_walk (m : Maze.t) (b a : Pos) (l : list Pos) :
  shape (Maze.width m) (Maze.height m) (Maze.grid m) ->
  walk (passage (Maze.grid m)) b a l ->
  exists dirs,
    Forall unit_dir dirs /\ S (length dirs) = length l /\
    forall (p : Player.t T) (ts : list T),
      (Player.x p, Player.y p) = a ->
      length ts = length dirs ->
      spaced (Player.moveCooldown p) (Player.lastMoveTime p) ts ->
      exists p', Player.moves (timed ts dirs) m p = Ok p' /\
                 (Player.x p', Player.y p') = b.
Proof.
  intros Hs. induction 1 as [Hb|a a' l Ha Hadj Hw IH].
  - exists []. split; [constructor|]. split; [reflexivity|].
    intros p ts Hp Hlen _. destruct ts; [|discriminate]. exists p. simpl. auto.
  - destruct IH as (dirs & Hunit & Hlen & Hrun).
    pose proof (walk_Forall _ _ _ _ Hw) as HF.
    destruct (walk_head _ _ _ _ Hw) as [l2 ->].
    apply Forall_cons in HF as [Ha' _].
    set (dx := fst a' - fst a). set (dy := snd a' - snd a).
    exists ((dx, dy) :: dirs). split; [|split].
    + constructor; [|exact Hunit]. apply adjacent_unit, Hadj.
    + simpl in *. lia.
    + intros p ts Hp Hts Hsp. destruct ts as [|t' ts]; [discriminate|].
      destruct Hsp as [Ht' Hsp]. injection Hts as Hts.
      assert (Player.x p = fst a) as Hx by (rewrite <- Hp; reflexivity).
      assert (Player.y p = snd a) as Hy by (rewrite <- Hp; reflexivity).
      assert (Maze.isWall m (Player.x p + dx) (Player.y p + dy) = Ok false) as Hopen.
      { rewrite isWall_wallAt by exact Hs. f_equal. subst dx dy. rewrite Hx, Hy.
        replace (fst a + (fst a' - fst a), snd a + (snd a' - snd a)) with a'; [exact Ha'|].
        destruct a'. simpl. f_equal; lia. }
      pose proof (move_accepted p t' dx dy m Ht' Hopen) as Hmove.
      destruct (Hrun (Player.mk (Player.x p + dx) (Player.y p + dy) (Player.cellSize p)
                                (Player.moveCooldown p) t') ts) as (p' & Hrest & Hend).
      { simpl. subst dx dy. rewrite Hx, Hy. destruct a'. simpl. f_equal; lia. }
      { exact Hts. }
      { exact Hsp. }
      exists p'. split; [|exact Hend].
      unfold timed. simpl. rewrite Hmove. exact Hrest.
Qed.

(** A path that repeats no cell is no longer than the grid has cells. *)
Lemma route_length (w h : Z) (g : Grid) (a b : Pos) (l : list Pos) :
  shape w h g -> route g a b l -> (length l <= Z.to_nat (w * h))%nat.
Proof.
  intros Hs [Hl Hnd].
  assert (l ⊆+ list_prod (seqZ 0 w) (seqZ 0 h)) as Hsub.
  { apply NoDup_submseteq; [exact Hnd|]. intros [x y] Hc.
    pose proof (walk_Forall _ _ _ _ Hl) as HF.
    rewrite Forall_forall in HF. apply HF in Hc.
    apply (passage_inside _ _ _ _ Hs) in Hc as [Hx Hy]. simpl in Hx, Hy.
    apply list_elem_of_In, in_prod; apply list_elem_of_In, elem_of_seqZ; lia. }
  apply submseteq_length in Hsub.
  rewrite length_prod, !length_seqZ in Hsub.
  destruct (decide (0 <= w)) as [Hw|Hw]; [destruct (decide (0 <= h)) as [Hh|Hh]|].
  - rewrite Z2Nat.inj_mul by lia. exact Hsub.
  - rewrite (Z2Nat.nonpos h) in Hsub by lia. lia.
  - rewrite (Z2Nat.nonpos w) in Hsub by lia. lia.
Qed.

(** X3: every constructed maze of width and height at least 3 can be won.
    There are unit directions, fewer than the grid has cells, such that
    [move] calls for them take the player from (1,1) to the exit, whatever
    the times of the calls, as long as each comes at least the player's
    cooldown after the one before and the first that long after the
    player's initial time. *)
Theorem maze_can_be_won (m : Maze.t) (size : Z) (cooldown zero : T) :
  constructed m -> 3 <= Maze.width m -> 3 <= Maze.height m ->
  exists dirs,
    Forall unit_dir dirs /\
    (length dirs < Z.to_nat (Maze.width m * Maze.height m))%nat /\
    forall ts : list T,
      length ts = length dirs -> spaced cooldown zero ts ->
      exists p,
        Player.moves (timed ts dirs) m (Player.new 1 1 size cooldown zero) = Ok p /\
        Maze.isExit m (Player.getX p) (Player.getY p) = true.
Proof.
  intros Hc Hw Hh.
  destruct (start_to_exit m Hc Hw Hh) as [l Hl].
  apply constructed_facts in Hc as (_ & _ & Hs & _).
  pose proof (route_length _ _ _ _ _ _ Hs Hl) as Hbound.
  destruct (follow_walk m _ _ _ Hs (proj1 Hl)) as (dirs & Hunit & Hlen & Hrun).
  exists dirs. split; [exact Hunit|]. split; [lia|].
  intros ts Hts Hsp.
  destruct (Hrun (Player.new 1 1 size cooldown zero) ts) as (p & Hmoves & Hend);
    [reflexivity | exact Hts | exact Hsp |].
  exists p. split; [exact Hmoves|].
  injection Hend as Hx Hy. unfold Maze.isExit, Player.getX, Player.getY.
  rewrite Hx, Hy, !Z.eqb_refl. reflexivity.
Qed.

End Winning.

Lemma maze_can_be_won_witness :
  spaced 200 0 [200; 450; 650; 1000] /\
  exists dirs,
    Forall unit_dir dirs /\
    (length dirs < Z.to_nat (Maze.width demo_maze * Maze.height demo_maze))%nat /\
    forall ts : list Z,
      length ts = length dirs -> spaced 200 0 ts ->
      exists p,
        Player.moves (timed ts dirs) demo_maze (Player.new 1 1 50 200 0) = Ok p /\
        Maze.isExit demo_maze (Player.getX p) (Player.getY p) = true.
Proof.
  split; [simpl; repeat split|].
  apply (maze_can_be_won demo_maze 50 200 0 constructed_demo); simpl; lia.
Defined.

(** * Counting cells and draws *)

Lemma update_weight (k : Cell.t -> nat) (f : Cell.t -> Cell.t) (g g' : Grid) (x y : Z) :
  Maze.update f g x y = Ok g' ->
  exists v, Maze.cell g x y = Ok v /\
    (sum_list_with (sum_list_with k) g' + k v
     = sum_list_with (sum_list_with k) g + k (f v))%nat.
Proof.
  unfold Maze.update.
  intros (row & Hrow & (v & Hv & (row' & Hrow' & Hg')%bind_Ok)%bind_Ok)%bind_Ok.
  exists v. split; [apply cell_Ok; eauto|].
  apply index_Ok in Hrow as [_ Hrow]. apply index_Ok in Hv as [_ Hv].
  apply store_Ok in Hg' as [_ ->]. apply store_Ok in Hrow' as [_ ->].
  pose proof (sum_list_with_insert (sum_list_with k) g (Z.to_nat y)
                (<[Z.to_nat x := f v]> row) row Hrow) as Hsum.
  pose proof (sum_list_with_insert k row (Z.to_nat x) (f v) v Hv) as Hsum'.
  lia.
Qed.

(** Opening a wall removes one wall; opening a passage removes none. *)
Lemma carve_walls (g g1 : Grid) (x y : Z) :
  Maze.update (Cell.set_isWall false) g x y = Ok g1 ->
  walls g = (walls g1 + (if wallAt g (x, y) then 1 else 0))%nat.
Proof.
  intros Hup. unfold walls.
  destruct (update_weight (fun c => if Cell.isWall c then 1%nat else 0%nat) _ _ _ _ _ Hup)
    as (v & Hv & Hsum).
  unfold wallAt. simpl. rewrite Hv. simpl in Hsum. lia.
Qed.

Lemma visit_walls (g g1 : Grid) (x y : Z) :
  Maze.update (Cell.set_visited true) g x y = Ok g1 -> walls g1 = walls g.
Proof.
  intros Hup. unfold walls.
  destruct (update_weight (fun c => if Cell.isWall c then 1%nat else 0%nat) _ _ _ _ _ Hup)
    as (v & Hv & Hsum).
  simpl in Hsum. lia.
Qed.

Lemma shuffle_draws (n : nat) (i : Z) (d d' : list Dir) (r r' : Rng) :
  Maze.shuffle GetRandomValue n i d r = Ok (d', r') ->
  position r' = (position r + n)%nat /\ source r' = source r.
Proof.
  revert i d r. induction n as [|n IH]; intros i d r; simpl.
  - intros [= <- <-]. split; [lia | reflexivity].
  - unfold GetRandomValue at 1, rand.
    destruct (3 <? i); simpl; intros (d1 & _ & Hrest)%bind_Ok;
      apply IH in Hrest as [Hpos Hsrc]; simpl in *; split; (lia || assumption).
Qed.

Lemma gen_ok_pre (w h : Z) (recurse : Z -> Z -> Grid * Rng -> result (Grid * Rng))
    (fuel : nat) (x y : Z) (g : Grid) (r : Rng) :
  gen_ok w h recurse fuel -> gen_pre w h x y g fuel ->
  exists g' r', recurse x y (g, r) = Ok (g', r') /\
                gen_post w h g g' /\ visitedAt g' (x, y) = true.
Proof. intros Hok (Hin & Hnew & Hs & Hmark & Hfuel). apply Hok; assumption. Qed.

(** The call the loop makes after carving towards an unvisited cell meets
    the contract, and both the carved cell and that cell were walls. *)
Lemma carve_pre (w h : Z) (g g1 : Grid) (x y dx dy : Z) (f : nat) :
  Inv w h g -> visitedAt g (x, y) = true -> unit_dir (dx, dy) ->
  inside w h (x + dx * 2, y + dy * 2) ->
  visitedAt g (x + dx * 2, y + dy * 2) = false ->
  Maze.update (Cell.set_isWall false) g (x + dx) (y + dy) = Ok g1 ->
  (unvisited g <= f)%nat ->
  gen_pre w h (x + dx * 2) (y + dy * 2) g1 f /\
  wallAt g (x + dx, y + dy) = true /\
  wallAt g1 (x + dx * 2, y + dy * 2) = true /\
  unvisited g1 = unvisited g /\
  (forall m, visitedAt g1 m = visitedAt g m).
Proof.
  intros Hinv Hvis Hd Hn Hnew Hg1 Hfuel.
  destruct (carve_flags _ _ _ _ Hg1) as (Hp1 & Hv1 & Hs1 & Hc1).
  assert (step (x, y) (dx, dy) 1 = (x + dx, y + dy)) as Hc'
    by (unfold step; simpl; f_equal; lia).
  pose proof (carve_n_wall w h g (x, y) (dx, dy) Hinv Hvis Hd Hnew) as Hnwall.
  unfold step in Hnwall. simpl in Hnwall.
  assert (~ passage g (x + dx, y + dy)) as Hwall.
  { intros Hc. assert (visitedAt g (x + dx * 2, y + dy * 2) = true) as Hv; [|congruence].
    apply (inv_joint _ _ _ Hinv (x + dx, y + dy)); [exact Hc| |].
    - apply unit_dir_cases in Hd as [Hd | [Hd | [Hd | Hd]]];
        injection Hd as -> ->; unfold adjacent; simpl; lia.
    - apply (sublattice_far (x, y) (dx, dy)); [|exact Hd].
      apply (inv_visited _ _ _ Hinv), Hvis. }
  split; [|split; [|split; [|split]]].
  - split; [exact Hn|]. split; [rewrite Hv1; exact Hnew|].
    split; [apply Hs1, Hinv|]. split; [|lia].
    intros ga gb Hga Hgb.
    destruct (visit_flags _ _ _ _ Hga) as (Hwa & Hva & Hsa & _).
    destruct (carve_flags _ _ _ _ Hgb) as (Hpb & Hvb & Hsb & _).
    apply (carve_Inv w h g gb (x, y) (dx, dy)); auto.
    + apply Hsb, Hsa, Hs1, Hinv.
    + intros m. rewrite Hpb. unfold passage at 1. rewrite Hwa.
      fold (passage g1 m). rewrite Hp1, Hc'. unfold step. simpl. tauto.
    + intros m. rewrite Hvb, Hva, Hv1. reflexivity.
  - unfold passage in Hwall. destruct (wallAt g (x + dx, y + dy)); congruence.
  - destruct (wallAt g1 (x + dx * 2, y + dy * 2)) eqn:Hw1; [reflexivity|].
    exfalso. apply Hp1 in Hw1 as [Hw1 | Hw1]; [exact (Hnwall Hw1)|].
    apply unit_dir_cases in Hd as [Hd | [Hd | [Hd | Hd]]];
      injection Hd as -> ->;
      pose proof (f_equal fst Hw1); pose proof (f_equal snd Hw1); simpl in *; lia.
  - exact Hc1.
  - exact Hv1.
Qed.

Lemma explore_tally (w h : Z) (recurse : Z -> Z -> Grid * Rng -> result (Grid * Rng))
    (f : nat) (x y : Z) :
  gen_ok w h recurse f ->
  (forall x y g r g' r',
     gen_pre w h x y g f -> wallAt g (x, y) = true ->
     recurse x y (g, r) = Ok (g', r') ->
     exists k, tally g r g' r' (S k) (S (2 * k))) ->
  forall dirs g r g' r',
    Forall unit_dir dirs -> Inv w h g -> inside w h (x, y) ->
    visitedAt g (x, y) = true -> (unvisited g <= f)%nat ->
    Maze.explore w h recurse x y dirs (g, r) = Ok (g', r') ->
    exists k, tally g r g' r' k (2 * k).
Proof.
  intros Hok Hrec.
  induction dirs as [|[dx dy] rest IH]; intros g r g' r' Hdirs Hinv Hin Hvis Hfuel Hrun.
  - injection Hrun as <- <-. exists 0%nat. unfold tally. repeat split; lia.
  - apply Forall_cons in Hdirs as [Hd Hrest]. simpl in Hrun.
    destruct (Maze.isInsideGrid w h (x + dx * 2) (y + dy * 2)) eqn:Hn; [|eauto].
    apply isInsideGrid_spec in Hn.
    destruct (proj1 (shape_cell _ _ _ _ _ (inv_shape _ _ _ Hinv)) Hn) as [v Hv].
    rewrite Hv in Hrun. simpl in Hrun.
    destruct (Cell.visited v) eqn:Hvv; simpl in Hrun; [eauto|].
    assert (visitedAt g (x + dx * 2, y + dy * 2) = false) as Hnew.
    { unfold visitedAt. simpl. rewrite Hv. exact Hvv. }
    apply bind_Ok in Hrun as (g1 & Hg1 & Hrun).
    apply bind_Ok in Hrun as ([g2 r2] & Hcall & Hrun).
    destruct (carve_pre w h g g1 x y dx dy f Hinv Hvis Hd Hn Hnew Hg1 Hfuel)
      as (Hpre & Hcwall & Hnwall & Hc1 & Hv1).
    destruct (gen_ok_pre w h recurse f _ _ g1 r Hok Hpre)
      as (g2' & r2' & Hcall' & (Hinv2 & Hmono2 & Hle2 & _) & _).
    rewrite Hcall in Hcall'. injection Hcall' as <- <-.
    destruct (Hrec _ _ _ _ _ _ Hpre Hnwall Hcall) as (k1 & Hu1 & Hw1 & Hp1 & Hs1).
    destruct (IH g2 r2 g' r' Hrest Hinv2 Hin) as (k2 & Hu2 & Hw2 & Hp2 & Hs2);
      [apply Hmono2; rewrite Hv1; exact Hvis | lia | exact Hrun |].
    pose proof (carve_walls _ _ _ _ Hg1) as Hcw. rewrite Hcwall in Hcw.
    exists (S k1 + k2)%nat. unfold tally. repeat split; try lia. congruence.
Qed.

Lemma generateMazeRecursive_tally (w h : Z) (fuel : nat) :
  forall x y g r g' r',
    gen_pre w h x y g fuel -> wallAt g (x, y) = true ->
    Maze.generateMazeRecursive w h fuel x y (g, r) = Ok (g', r') ->
    exists k, tally g r g' r' (S k) (S (2 * k)).
Proof.
  induction fuel as [|f IH]; intros x y g r g' r' Hpre Hwall Hrun; [discriminate|].
  destruct Hpre as (Hin & Hnew & Hshape & Hmark & Hfuel).
  cbn [Maze.generateMazeRecursive fst snd] in Hrun.
  apply bind_Ok in Hrun as (g1 & Hg1 & Hrun).
  apply bind_Ok in Hrun as (g2 & Hg2 & Hrun).
  apply bind_Ok in Hrun as ([dirs r1] & Hsh & Hrun).
  destruct (visit_flags _ _ _ _ Hg1) as (Hw1 & Hv1 & Hs1 & Hc1).
  destruct (carve_flags _ _ _ _ Hg2) as (Hp2 & Hv2 & Hs2 & Hc2).
  rewrite Hnew in Hc1.
  destruct (shuffle_draws _ _ _ _ _ _ Hsh) as [Hpos Hsrc].
  destruct (shuffle_directions r) as (dirs' & r1' & Hsh' & Hperm).
  rewrite Hsh in Hsh'. injection Hsh' as <- <-.
  destruct (explore_tally w h _ f x y (generateMazeRecursive_ok w h f) IH
              dirs g2 r1 g' r') as (k & Hu & Hw & Hp & Hs).
  { apply Forall_forall. intros d Hd. unfold unit_dir. rewrite <- Hperm. exact Hd. }
  { exact (Hmark g1 g2 Hg1 Hg2). }
  { exact Hin. }
  { rewrite Hv2. apply Hv1. right. reflexivity. }
  { lia. }
  { exact Hrun. }
  pose proof (visit_walls _ _ _ _ Hg1) as Hvw.
  pose proof (carve_walls _ _ _ _ Hg2) as Hcw. rewrite Hw1, Hwall in Hcw.
  exists k. unfold tally. repeat split; try lia. congruence.
Qed.

Lemma sum_list_with_replicate {A : Type} (f : A -> nat) (n : nat) (a : A) :
  sum_list_with f (replicate n a) = (n * f a)%nat.
Proof. induction n as [|n IH]; simpl; [reflexivity|]. rewrite IH. lia. Qed.

Lemma fresh_counts (w h : Z) :
  0 <= w -> 0 <= h ->
  unvisited (fresh w h) = Z.to_nat (w * h) /\ walls (fresh w h) = Z.to_nat (w * h).
Proof.
  intros Hw Hh. unfold unvisited, walls, fresh.
  rewrite !sum_list_with_replicate. simpl. split; nia.
Qed.

Lemma fresh_pre (w h : Z) :
  2 <= w -> 2 <= h -> gen_pre w h 1 1 (fresh w h) (S (Z.to_nat (w * h))).
Proof.
  intros Hw Hh.
  pose proof (fresh_shape w h ltac:(lia) ltac:(lia)) as Hs.
  split; [unfold inside; simpl; lia|]. split; [apply fresh_flags|].
  split; [exact Hs|]. split.
  - intros g1 g2 Hg1 Hg2.
    destruct (visit_flags _ _ _ _ Hg1) as (Hw1 & Hv1 & Hs1 & _).
    destruct (carve_flags _ _ _ _ Hg2) as (Hp2 & Hv2 & Hs2 & _).
    apply Inv_first.
    + apply Hs2, Hs1, Hs.
    + intros m. rewrite Hp2. unfold passage. rewrite Hw1.
      destruct (fresh_flags w h m) as [-> _]. unfold start. split; [|tauto].
      intros [? | ?]; [discriminate | assumption].
    + intros m. rewrite Hv2, Hv1.
      destruct (fresh_flags w h m) as [_ ->]. unfold start. split; [|tauto].
      intros [? | ?]; [discriminate | assumption].
  - pose proof (unvisited_bound _ _ _ Hs). lia.
Qed.

Lemma sum_list_with_index {A : Type} (f : A -> nat) (phi : nat -> nat) (l : list A) (s : nat) :
  (forall i a, l !! i = Some a -> f a = phi (s + i)%nat) ->
  sum_list_with f l = sum_list_with phi (seq s (length l)).
Proof.
  revert s. induction l as [|a l IH]; intros s Hphi; simpl; [reflexivity|].
  rewrite (Hphi 0%nat a eq_refl), Nat.add_0_r. f_equal.
  apply IH. intros i b Hb. rewrite (Hphi (S i) b Hb). f_equal. lia.
Qed.

Lemma div2_S (n : nat) :
  Nat.div2 (S n) = (Nat.div2 n + if Nat.odd n then 1 else 0)%nat.
Proof.
  pose proof (Nat.div2_odd n) as Hn. pose proof (Nat.div2_odd (S n)) as HS.
  rewrite Nat.odd_succ, <- Nat.negb_odd in HS.
  destruct (Nat.odd n); simpl in *; lia.
Qed.

(** Summing [a] over the odd indices below [n] and [b] over the even ones. *)
Lemma sum_by_parity (a b n : nat) :
  sum_list_with (fun i => if Nat.odd i then a else b) (seq 0 n)
  = (Nat.div2 n * a + (n - Nat.div2 n) * b)%nat.
Proof.
  induction n as [|n IH]; [reflexivity|].
  rewrite seq_S, sum_list_with_app, IH, div2_S. simpl.
  pose proof (Nat.div2_odd n) as Hn.
  destruct (Nat.odd n); simpl in *; nia.
Qed.

Lemma Odd_of_nat (i : nat) : Z.Odd (Z.of_nat i) <-> Nat.odd i = true.
Proof.
  pose proof (Nat.div2_odd i) as Hi. split.
  - intros [k Hk]. destruct (Nat.odd i); [reflexivity|]. simpl in Hi. lia.
  - intros Hodd. rewrite Hodd in Hi. simpl in Hi. exists (Z.of_nat (Nat.div2 i)). lia.
Qed.

(** A grid whose visited cells are the sublattice cells has
    [(w/2) * (h/2)] of them. *)
Lemma unvisited_sublattice (w h : Z) (g : Grid) :
  0 <= w -> shape w h g ->
  (forall c, visitedAt g c = true <-> sublattice c /\ inside w h c) ->
  Z.of_nat (unvisited g) = w * h - (w / 2) * (h / 2).
Proof.
  intros Hw0 [Hlen Hrows] Hvis. unfold unvisited.
  set (W := Z.to_nat w). set (H := Z.to_nat h).
  rewrite (sum_list_with_index _
             (fun j => if Nat.odd j then (W - Nat.div2 W)%nat else W) g 0).
  - rewrite sum_by_parity.
    replace (length g) with H by lia.
    rewrite <- !Z.div2_div.
    replace w with (Z.of_nat W) by lia. replace h with (Z.of_nat H) by lia.
    rewrite <- !Nat2Z.inj_div2.
    pose proof (Nat.div2_odd W). pose proof (Nat.div2_odd H).
    destruct (Nat.odd W), (Nat.odd H); simpl in *; nia.
  - intros j row Hrow. simpl.
    rewrite Forall_lookup in Hrows. pose proof (Hrows _ _ Hrow) as Hroww.
    pose proof (lookup_lt_Some _ _ _ Hrow) as Hj.
    rewrite (sum_list_with_index _
               (fun i => if Nat.odd i then (if Nat.odd j then 0 else 1)%nat
                         else 1%nat) row 0).
    + rewrite sum_by_parity. replace (length row) with W by lia.
      pose proof (Nat.div2_odd W).
      destruct (Nat.odd j), (Nat.odd W); simpl in *; lia.
    + intros i c Hc. simpl.
      pose proof (lookup_lt_Some _ _ _ Hc) as Hi.
      specialize (Hvis (Z.of_nat i, Z.of_nat j)).
      unfold visitedAt, Maze.cell, index, sublattice, inside in Hvis. simpl in Hvis.
      destruct (Z.ltb_spec (Z.of_nat j) 0); [lia|].
      destruct (Z.ltb_spec (Z.of_nat i) 0); [lia|].
      rewrite !Nat2Z.id, Hrow in Hvis. simpl in Hvis.
      destruct (Z.ltb_spec (Z.of_nat i) 0); [lia|].
      rewrite Hc in Hvis. rewrite !Odd_of_nat in Hvis.
      destruct (Cell.visited c), (Nat.odd i), (Nat.odd j); try reflexivity; exfalso.
      * destruct Hvis as [Hvis _]. destruct Hvis as [[? ?] _]; [reflexivity | discriminate].
      * destruct Hvis as [Hvis _]. destruct Hvis as [[? ?] _]; [reflexivity | discriminate].
      * destruct Hvis as [Hvis _]. destruct Hvis as [[? ?] _]; [reflexivity | discriminate].
      * destruct Hvis as [_ Hvis]. assert (false = true); [|discriminate].
        apply Hvis. split; [auto | lia].
Qed.

Lemma generateMaze_counts (w h : Z) (r : Rng) (g' : Grid) (r' : Rng) :
  2 <= w -> 2 <= h ->
  Maze.generateMaze w h (fresh w h, r) = Ok (g', r') ->
  source r' = source r /\
  Z.of_nat (position r') = Z.of_nat (position r) + 4 * ((w / 2) * (h / 2)) /\
  Z.of_nat (walls g') = w * h - 2 * ((w / 2) * (h / 2)) + 1.
Proof.
  intros Hw Hh Hgen.
  destruct (Maze_new_runs w h 0 r Hw Hh) as (g1 & r1 & _ & Hgen' & Hinv & Hall & _).
  rewrite Hgen in Hgen'. injection Hgen' as <- <-.
  destruct (generateMazeRecursive_tally w h _ 1 1 (fresh w h) r g' r'
              (fresh_pre w h Hw Hh)) as (k & Hu & Hwl & Hp & Hs);
    [apply fresh_flags | exact Hgen |].
  destruct (fresh_counts w h) as [Hfu Hfw]; [lia|lia|].
  assert (Z.of_nat (unvisited g') = w * h - (w / 2) * (h / 2)) as Hcount.
  { apply unvisited_sublattice; [lia | apply Hinv |].
    intros c. split.
    - intros [Hp' Hsub]%(inv_visited _ _ _ Hinv). split; [exact Hsub|].
      eapply passage_inside; [apply Hinv | exact Hp'].
    - intros [Hsub Hin]. apply Hall; assumption. }
  rewrite Hfu in Hu. rewrite Hfw in Hwl.
  assert (0 <= w * h) by nia.
  split; [exact Hs|]. split; lia.
Qed.

(** X4: the constructor calls [GetRandomValue] exactly
    [4 * (width/2) * (height/2)] times, four for each sublattice cell, and
    leaves the source of randomness itself as it was. *)
Theorem constructor_draws (w h size : Z) (r r' : Rng) (m : Maze.t) :
  Maze.new w h size r = Ok (m, r') ->
  source r' = source r /\
  Z.of_nat (position r') = Z.of_nat (position r) + 4 * ((w / 2) * (h / 2)).
Proof.
  intros Hnew. destruct (Maze_new_dims _ _ _ _ _ _ Hnew) as [Hw Hh].
  destruct (Maze_new_runs w h size r Hw Hh) as (g' & r1 & g'' & Hgen & _ & _ & _ & Hnew').
  rewrite Hnew' in Hnew. injection Hnew as <- <-.
  destruct (generateMaze_counts w h r g' r1 Hw Hh Hgen) as (Hs & Hp & _). auto.
Qed.

Lemma constructor_draws_witness :
  source (mkRng (source demo_rng) 16) = source demo_rng /\
  Z.of_nat (position (mkRng (source demo_rng) 16))
  = Z.of_nat (position demo_rng) + 4 * ((5 / 2) * (5 / 2)).
Proof.
  apply (constructor_draws 5 5 50 demo_rng (mkRng (source demo_rng) 16) demo_maze).
  vm_compute. reflexivity.
Defined.



(** * Shape of the passages *)

(** X6: a constructed maze of odd width and odd height is a perfect maze:
    every passage cell has exactly one passage path to the start that repeats
    no cell, and no passage cells form a cycle. *)
Theorem perfect_when_odd (m : Maze.t) :
  constructed m -> Z.Odd (Maze.width m) -> Z.Odd (Maze.height m) ->
  (forall x y, Maze.isWall m x y = Ok false ->
     exists l, route (Maze.grid m) (x, y) start l /\
               forall l', route (Maze.grid m) (x, y) start l' -> l' = l) /\
  acyclic (passage (Maze.grid m)).
Proof.
  intros Hc [a Ha] [b Hb].
  pose proof Hc as (Hw & Hh & _)%constructed_facts.
  apply constructed_generated in Hc as (Hex & Hey & Hs & g' & Hinv & Hall & Hp).
  assert (Hsame : forall c, passage g' c <-> passage (Maze.grid m) c).
  { intros c. rewrite Hp. split; [tauto|]. intros [Hc | ->]; [exact Hc|].
    apply (inv_visited _ _ _ Hinv), Hall.
    - rewrite Hex, Hey. split; simpl; [exists (a - 1) | exists (b - 1)]; lia.
    - rewrite Hex, Hey. unfold inside. simpl. lia. }
  split.
  - intros x y. rewrite isWall_wallAt by exact Hs. intros [= Hxy].
    exact (tree_to_ext _ _ _ Hsame (inv_tree _ _ _ Hinv) (x, y) Hxy).
  - exact (acyclic_ext _ _ Hsame (inv_acyclic _ _ _ Hinv)).
Qed.

Lemma perfect_when_odd_witness :
  (forall x y, Maze.isWall demo_maze x y = Ok false ->
     exists l, route (Maze.grid demo_maze) (x, y) start l /\
               forall l', route (Maze.grid demo_maze) (x, y) start l' -> l' = l) /\
  acyclic (passage (Maze.grid demo_maze)).
Proof.
  apply (perfect_when_odd demo_maze constructed_demo); simpl; [exists 2 | exists 2]; lia.
Defined.

(** X7: in a constructed maze a cell with an even column and an even row
    is a wall unless it is the exit, so every 2x2 block of cells that does not
    hold the exit holds a wall: corridors are one cell wide. *)
Theorem corridors_one_wide (m : Maze.t) (x y : Z) :
  constructed m ->
  (Z.Even x -> Z.Even y -> (x, y) <> (Maze.exitX m, Maze.exitY m) ->
   Maze.isWall m x y = Ok true) /\
  ((forall i j, x <= i <= x + 1 -> y <= j <= y + 1 ->
                (i, j) <> (Maze.exitX m, Maze.exitY m)) ->
   exists i j, x <= i <= x + 1 /\ y <= j <= y + 1 /\ Maze.isWall m i j = Ok true).
Proof.
  intros (Hex & Hey & Hs & g' & Hinv & Hall & Hp)%constructed_generated.
  assert (Hpillar : forall i j, Z.Even i -> Z.Even j ->
            (i, j) <> (Maze.exitX m, Maze.exitY m) -> Maze.isWall m i j = Ok true).
  { intros i j [a Ha] [b Hb] Hne. rewrite isWall_wallAt by exact Hs. f_equal.
    destruct (wallAt (Maze.grid m) (i, j)) eqn:Hij; [reflexivity|].
    exfalso. apply Hp in Hij as [Hij | Hij]; [|contradiction].
    destruct (inv_parity _ _ _ Hinv _ Hij) as [[k Hk] | [k Hk]]; simpl in Hk; lia. }
  split; [apply Hpillar|].
  intros Hblock.
  destruct (Z.Even_or_Odd x) as [Hx | [a Ha]]; destruct (Z.Even_or_Odd y) as [Hy | [b Hb]].
  - exists x, y. split; [lia|]. split; [lia|]. apply Hpillar; auto. apply Hblock; lia.
  - exists x, (y + 1). split; [lia|]. split; [lia|].
    apply Hpillar; [exact Hx | exists (b + 1); lia | apply Hblock; lia].
  - exists (x + 1), y. split; [lia|]. split; [lia|].
    apply Hpillar; [exists (a + 1); lia | exact Hy | apply Hblock; lia].
  - exists (x + 1), (y + 1). split; [lia|]. split; [lia|].
    apply Hpillar; [exists (a + 1); lia | exists (b + 1); lia | apply Hblock; lia].
Qed.

Lemma corridors_one_wide_witness :
  Maze.isWall demo_maze 2 2 = Ok true /\
  exists i j, 1 <= i <= 1 + 1 /\ 1 <= j <= 1 + 1 /\ Maze.isWall demo_maze i j = Ok true.
Proof.
  destruct (corridors_one_wide demo_maze 2 2 constructed_demo) as [Hpillar _].
  destruct (corridors_one_wide demo_maze 1 1 constructed_demo) as [_ Hblock].
  split.
  - apply Hpillar; [exists 1; lia | exists 1; lia | simpl; intros [=]].
  - apply Hblock. simpl. intros i j Hi Hj [= -> ->]. lia.
Defined.

(** * Drawing *)

Lemma for_each_pure {A B : Type} (body : A -> result (list B)) (f : A -> list B)
    (l : list A) :
  (forall a, a ∈ l -> body a = Ok (f a)) -> for_each body l = Ok (l ≫= f).
Proof.
  induction l as [|a l IH]; intros Hbody; [reflexivity|]. simpl.
  rewrite (Hbody a) by left. cbn [bind].
  rewrite IH by (intros a' Ha'; apply Hbody; right; exact Ha'). reflexivity.
Qed.

Lemma length_list_bind {A B : Type} (f : A -> list B) (l : list A) :
  length (l ≫= f) = sum_list_with (fun a => length (f a)) l.
Proof.
  induction l as [|a l IH]; [reflexivity|].
  rewrite bind_cons, length_app, IH. reflexivity.
Qed.

Lemma sum_list_with_seqZ (k : Z -> nat) (n : Z) :
  sum_list_with k (seqZ 0 n) = sum_list_with (fun i => k (Z.of_nat i)) (seq 0 (Z.to_nat n)).
Proof.
  unfold seqZ. generalize (seq 0 (Z.to_nat n)). intros l.
  induction l as [|i l IH]; [reflexivity|]. simpl. rewrite Z.add_0_r. f_equal. apply IH.
Qed.

Lemma wallAt_lookup (g : Grid) (i j : nat) (row : list Cell.t) (c : Cell.t) :
  g !! j = Some row -> row !! i = Some c ->
  wallAt g (Z.of_nat i, Z.of_nat j) = Cell.isWall c.
Proof.
  intros Hrow Hc. unfold wallAt, Maze.cell, index. simpl.
  destruct (Z.ltb_spec (Z.of_nat j) 0); [lia|]. rewrite Nat2Z.id, Hrow. simpl.
  destruct (Z.ltb_spec (Z.of_nat i) 0); [lia|]. rewrite Nat2Z.id, Hc. reflexivity.
Qed.

Lemma wall_rectangles_length {F : Type} (color : Raylib.Color) (m : Maze.t) :
  shape (Maze.width m) (Maze.height m) (Maze.grid m) ->
  length (wall_rectangles (F := F) color m) = walls (Maze.grid m).
Proof.
  intros [Hlen Hrows]. unfold wall_rectangles, walls.
  rewrite length_list_bind, sum_list_with_seqZ.
  replace (Z.to_nat (Maze.height m)) with (length (Maze.grid m)) by lia.
  symmetry. apply sum_list_with_index. intros j row Hrow. simpl.
  rewrite length_list_bind, sum_list_with_seqZ.
  rewrite Forall_lookup in Hrows. pose proof (Hrows _ _ Hrow) as Hw.
  replace (Z.to_nat (Maze.width m)) with (length row) by lia.
  apply sum_list_with_index. intros i c Hc. simpl.
  rewrite (wallAt_lookup _ _ _ _ _ Hrow Hc). destruct (Cell.isWall c); reflexivity.
Qed.

Section DrawingFacts.

Context {F : Type} `{Floats F}.

Lemma draw_runs (color : Raylib.Color) (tex : Raylib.Texture2D) (m : Maze.t) :
  shape (Maze.width m) (Maze.height m) (Maze.grid m) ->
  Maze.draw color tex m =
  Ok (wall_rectangles color m ++
      [Raylib.DrawTextureEx tex
         (of_int (Maze.exitX m * Maze.cellSize m), of_int (Maze.exitY m * Maze.cellSize m))
         fzero (fdiv (of_int (Maze.cellSize m)) (of_int (Raylib.width tex)))
         Raylib.WHITE]).
Proof.
  intros Hs. unfold Maze.draw.
  rewrite (for_each_pure _ (fun y => x ← seqZ 0 (Maze.width m);
             if wallAt (Maze.grid m) (x, y)
             then [Raylib.DrawRectangle (x * Maze.cellSize m) (y * Maze.cellSize m)
                                        (Maze.cellSize m) (Maze.cellSize m) color]
             else [])); [reflexivity|].
  intros y Hy%elem_of_seqZ. apply for_each_pure.
  intros x Hx%elem_of_seqZ.
  destruct (proj1 (shape_cell _ _ _ x y Hs)) as [c Hc]; [unfold inside; simpl; lia|].
  rewrite Hc. unfold wallAt. simpl. rewrite Hc. reflexivity.
Qed.

Lemma wall_rectangles_elem (color : Raylib.Color) (m : Maze.t) (c : Raylib.call F) :
  c ∈ wall_rectangles color m <->
  exists x y, inside (Maze.width m) (Maze.height m) (x, y) /\
              wallAt (Maze.grid m) (x, y) = true /\
              c = Raylib.DrawRectangle (x * Maze.cellSize m) (y * Maze.cellSize m)
                                       (Maze.cellSize m) (Maze.cellSize m) color.
Proof.
  unfold wall_rectangles. rewrite list_elem_of_bind. split.
  - intros (y & (x & Hc & Hx%elem_of_seqZ)%list_elem_of_bind & Hy%elem_of_seqZ).
    exists x, y. split; [unfold inside; simpl; lia|].
    destruct (wallAt (Maze.grid m) (x, y)); [|apply elem_of_nil in Hc; contradiction].
    apply list_elem_of_singleton in Hc. auto.
  - intros (x & y & [Hx Hy] & Hwall & ->). simpl in *.
    exists y. split; [|apply elem_of_seqZ; lia].
    apply list_elem_of_bind. exists x. split; [|apply elem_of_seqZ; lia].
    rewrite Hwall. left.
Qed.

(** X8: on a constructed maze [draw] reads no cell outside the grid. It
    logs one rectangle of [cellSize] by [cellSize] at
    [(x*cellSize, y*cellSize)] for each wall cell [(x, y)] of the grid and no
    other rectangle, as many as the grid has walls, and then, last, the exit
    texture at the exit cell. *)
Theorem draw_shows_walls (color : Raylib.Color) (tex : Raylib.Texture2D) (m : Maze.t) :
  constructed m ->
  exists rectangles,
    Maze.draw color tex m =
    Ok (rectangles ++
        [Raylib.DrawTextureEx tex
           (of_int (Maze.exitX m * Maze.cellSize m), of_int (Maze.exitY m * Maze.cellSize m))
           fzero (fdiv (of_int (Maze.cellSize m)) (of_int (Raylib.width tex)))
           Raylib.WHITE]) /\
    (forall c, c ∈ rectangles <->
       exists x y, 0 <= x < Maze.width m /\ 0 <= y < Maze.height m /\
                   Maze.isWall m x y = Ok true /\
                   c = Raylib.DrawRectangle (x * Maze.cellSize m) (y * Maze.cellSize m)
                                            (Maze.cellSize m) (Maze.cellSize m) color) /\
    length rectangles = walls (Maze.grid m).
Proof.
  intros (_ & _ & Hs & _)%constructed_facts.
  exists (wall_rectangles color m). split; [apply draw_runs, Hs|]. split.
  - intros c. rewrite wall_rectangles_elem. unfold inside. simpl.
    split; intros (x & y & Hc); exists x, y.
    + destruct Hc as ([Hx Hy] & Hwall & ->). rewrite isWall_wallAt by exact Hs.
      rewrite Hwall. auto.
    + destruct Hc as (Hx & Hy & Hwall & ->). rewrite isWall_wallAt in Hwall by exact Hs.
      injection Hwall as Hwall. auto.
  - apply wall_rectangles_length, Hs.
Qed.

End DrawingFacts.

(** Rational numbers as the floats of the examples. *)
#[export] Instance Q_floats : Floats Q :=
  {| of_int := inject_Z;
     to_int := fun q => Z.quot (Qnum q) (Z.pos (Qden q));
     fdiv := Qdiv;
     fzero := 0%Q |}.

Lemma draw_shows_walls_witness :
  let tex := Raylib.mkTexture 1 64 64 1 7 in
  let m := demo_maze in
  exists rectangles : list (Raylib.call Q),
    Maze.draw Raylib.LIGHTGRAY tex m =
    Ok (rectangles ++
        [Raylib.DrawTextureEx tex
           (of_int (Maze.exitX m * Maze.cellSize m), of_int (Maze.exitY m * Maze.cellSize m))
           fzero (fdiv (of_int (Maze.cellSize m)) (of_int (Raylib.width tex)))
           Raylib.WHITE]) /\
    (forall c, c ∈ rectangles <->
       exists x y, 0 <= x < Maze.width m /\ 0 <= y < Maze.height m /\
                   Maze.isWall m x y = Ok true /\
                   c = Raylib.DrawRectangle (x * Maze.cellSize m) (y * Maze.cellSize m)
                                            (Maze.cellSize m) (Maze.cellSize m)
                                            Raylib.LIGHTGRAY) /\
    length rectangles = walls (Maze.grid m).
Proof.
  intros tex m.
  exact (draw_shows_walls (F := Q) Raylib.LIGHTGRAY tex m constructed_demo).
Defined.

Section DrawingPlayer.

Context {T : Type} `{Clock T} {F : Type} `{Floats F}.

Lemma move_cellSize (p p' : Player.t T) (now : T) (dx dy : Z) (m : Maze.t) :
  Player.move now dx dy m p = Ok p' -> Player.cellSize p' = Player.cellSize p.
Proof.
  unfold Player.move.
  destruct (tge (tsub now (Player.lastMoveTime p)) (Player.moveCooldown p)).
  - intros (wall & _ & [= <-])%bind_Ok. destruct wall; reflexivity.
  - intros [= <-]. reflexivity.
Qed.

Lemma moves_cellSize (attempts : list (T * Z * Z)) (m : Maze.t) (p p' : Player.t T) :
  Player.moves attempts m p = Ok p' -> Player.cellSize p' = Player.cellSize p.
Proof.
  revert p. induction attempts as [|[[now dx] dy] rest IH]; intros p; simpl.
  - intros [= <-]. reflexivity.
  - intros (p1 & Hmove & Hrest)%bind_Ok.
    rewrite (IH _ Hrest). exact (move_cellSize _ _ _ _ _ _ Hmove).
Qed.

Lemma moves_keep_passage (attempts : list (T * Z * Z)) (m : Maze.t) (p p' : Player.t T) :
  shape (Maze.width m) (Maze.height m) (Maze.grid m) ->
  Maze.isWall m (Player.x p) (Player.y p) = Ok false ->
  Player.moves attempts m p = Ok p' ->
  Maze.isWall m (Player.x p') (Player.y p') = Ok false.
Proof.
  intros Hs. revert p. induction attempts as [|[[now dx] dy] rest IH]; intros p Hp; simpl.
  - intros [= <-]. exact Hp.
  - destruct (move_keeps_passage m p now dx dy Hs Hp) as (p1 & -> & Hp1).
    cbn [bind]. apply IH, Hp1.
Qed.

(** X9: with a cell size other than 0, [draw] puts no rectangle on a
    passage cell of a constructed maze. So none is at the exit, and none where
    [Player::draw] puts the texture of a player that started at (1,1) with
    the cell size of the maze, whatever moves it has made. *)
Theorem passages_stay_clear (color : Raylib.Color) (tex character : Raylib.Texture2D)
    (m : Maze.t) (calls : list (Raylib.call F))
    (cooldown zero : T) (attempts : list (T * Z * Z)) (p : Player.t T) :
  constructed m -> Maze.cellSize m <> 0 ->
  Maze.draw color tex m = Ok calls ->
  Player.moves attempts m (Player.new 1 1 (Maze.cellSize m) cooldown zero) = Ok p ->
  (forall x y rw rh col,
     Maze.isWall m x y = Ok false ->
     Raylib.DrawRectangle (x * Maze.cellSize m) (y * Maze.cellSize m) rw rh col ∉ calls) /\
  (forall rw rh col,
     Raylib.DrawRectangle (Maze.exitX m * Maze.cellSize m) (Maze.exitY m * Maze.cellSize m)
                          rw rh col ∉ calls) /\
  exists px py,
    Player.draw character p =
    [Raylib.DrawTextureEx character (of_int px, of_int py) fzero
       (fdiv (of_int (Maze.cellSize m)) (of_int (Raylib.width character))) Raylib.WHITE] /\
    forall rw rh col, Raylib.DrawRectangle px py rw rh col ∉ calls.
Proof.
  intros Hc Hcs Hdraw Hmoves.
  pose proof Hc as (_ & _ & Hs & Hex & Hey & _ & Hexit)%constructed_facts.
  rewrite draw_runs in Hdraw by exact Hs. injection Hdraw as <-.
  assert (Hclear : forall x y rw rh col,
            Maze.isWall m x y = Ok false ->
            Raylib.DrawRectangle (x * Maze.cellSize m) (y * Maze.cellSize m) rw rh col
            ∉ wall_rectangles color m ++
              [Raylib.DrawTextureEx tex
                 (of_int (Maze.exitX m * Maze.cellSize m),
                  of_int (Maze.exitY m * Maze.cellSize m))
                 fzero (fdiv (of_int (Maze.cellSize m)) (of_int (Raylib.width tex)))
                 Raylib.WHITE]).
  { intros x y rw rh col Hopen [Hin | Hin]%elem_of_app.
    - apply wall_rectangles_elem in Hin as (x' & y' & _ & Hwall & [= Hx Hy _ _ _]).
      apply Z.mul_cancel_r in Hx, Hy; try exact Hcs. subst x' y'.
      rewrite isWall_wallAt in Hopen by exact Hs. congruence.
    - apply list_elem_of_singleton in Hin. discriminate. }
  split; [exact Hclear|]. split.
  - intros rw rh col. apply Hclear. rewrite isWall_wallAt by exact Hs. f_equal. exact Hexit.
  - assert (Maze.isWall m (Player.x p) (Player.y p) = Ok false) as Hopen.
    { apply (moves_keep_passage _ _ _ _ Hs) in Hmoves; [exact Hmoves|].
      simpl. rewrite isWall_wallAt by exact Hs. f_equal.
      apply constructed_facts in Hc as (_ & _ & _ & _ & _ & Hstart & _). exact Hstart. }
    pose proof (moves_cellSize _ _ _ _ Hmoves) as Hsize. simpl in Hsize.
    exists (Player.x p * Maze.cellSize m), (Player.y p * Maze.cellSize m).
    split; [unfold Player.draw; rewrite Hsize; reflexivity|].
    intros rw rh col. apply Hclear, Hopen.
Qed.

End DrawingPlayer.

Lemma passages_stay_clear_witness :
  let tex := Raylib.mkTexture 1 64 64 1 7 in
  let character := Raylib.mkTexture 2 700 600 1 7 in
  let m := demo_maze in
  let calls : list (Raylib.call Q) :=
    match Maze.draw Raylib.LIGHTGRAY tex m with Ok calls => calls | Err _ => [] end in
  let p := Player.mk 1 3 50 200 600 in
  Player.moves [(300, 0, 1); (350, 1, 0); (600, 0, 1)] m (Player.new 1 1 50 200 0) = Ok p /\
  (forall x y rw rh col,
     Maze.isWall m x y = Ok false ->
     Raylib.DrawRectangle (x * Maze.cellSize m) (y * Maze.cellSize m) rw rh col ∉ calls) /\
  (forall rw rh col,
     Raylib.DrawRectangle (Maze.exitX m * Maze.cellSize m) (Maze.exitY m * Maze.cellSize m)
                          rw rh col ∉ calls) /\
  exists px py,
    Player.draw character p =
    [Raylib.DrawTextureEx character (of_int px, of_int py) fzero
       (fdiv (of_int (Maze.cellSize m)) (of_int (Raylib.width character))) Raylib.WHITE] /\
    forall rw rh col, Raylib.DrawRectangle px py rw rh col ∉ calls.
Proof.
  intros tex character m calls p.
  assert (Player.moves [(300, 0, 1); (350, 1, 0); (600, 0, 1)] m (Player.new 1 1 50 200 0)
          = Ok p) as Hmoves by reflexivity.
  split; [exact Hmoves|].
  apply (passages_stay_clear (F := Q) Raylib.LIGHTGRAY tex character m calls 200 0
           [(300, 0, 1); (350, 1, 0); (600, 0, 1)] p constructed_demo).
  - simpl. lia.
  - vm_compute. reflexivity.
  - exact Hmoves.
Defined.

(** * The menus *)

Lemma int_rem_mod (a b : Z) : 0 <= a -> 0 < b -> int_rem a b = Some (a mod b).
Proof.
  intros Ha Hb. unfold int_rem. destruct (Z.eqb_spec b 0); [lia|].
  rewrite Z.rem_mod_nonneg by lia. reflexivity.
Qed.

Lemma choix_mod (keyDown keyUp : bool) (selected n : Z) :
  0 < n -> 0 <= selected < n ->
  choix keyDown keyUp selected n
  = Some ((selected + (if keyDown then 1 else 0) - (if keyUp then 1 else 0)) mod n).
Proof.
  intros Hn Hsel. unfold choix.
  destruct keyDown, keyUp.
  - rewrite int_rem_mod by lia.
    pose proof (Z.mod_pos_bound (selected + 1) n Hn).
    rewrite int_rem_mod by lia. f_equal.
    replace ((selected + 1) mod n - 1 + n) with ((selected + 1) mod n + (n - 1)) by lia.
    rewrite Zplus_mod_idemp_l.
    replace (selected + 1 + (n - 1)) with (selected + 1 - 1 + 1 * n) by lia.
    apply Z_mod_plus_full.
  - rewrite int_rem_mod by lia. f_equal. f_equal. lia.
  - rewrite int_rem_mod by lia. f_equal.
    replace (selected - 1 + n) with (selected + 0 - 1 + 1 * n) by lia.
    apply Z_mod_plus_full.
  - f_equal. rewrite Z.mod_small by lia. lia.
Qed.

Lemma choix2_choix (keyRight keyLeft : bool) (selected n : Z) :
  choix2 keyRight keyLeft selected n = choix keyRight keyLeft selected n.
Proof. reflexivity. Qed.

(** X10: with a positive number of buttons and a selection in range,
    [choix] and [choix2] return a selection in range: one further, with a wrap
    from the last entry to the first, for the forward key; one back, with a
    wrap from the first entry to the last, for the backward key; and the
    selection itself when both keys or no key are pressed. *)
Theorem menu_selection_wraps (forward backward : bool) (selected n : Z) :
  0 < n -> 0 <= selected < n ->
  exists selected',
    choix forward backward selected n = Some selected' /\
    choix2 forward backward selected n = Some selected' /\
    0 <= selected' < n /\
    selected' = (if forward && negb backward then
                   if selected =? n - 1 then 0 else selected + 1
                 else if backward && negb forward then
                   if selected =? 0 then n - 1 else selected - 1
                 else selected).
Proof.
  intros Hn Hsel.
  exists ((selected + (if forward then 1 else 0) - (if backward then 1 else 0)) mod n).
  split; [apply choix_mod; lia|].
  split; [exact (choix_mod forward backward selected n Hn Hsel)|].
  split; [apply Z.mod_pos_bound; lia|].
  destruct forward, backward; simpl.
  - rewrite Z.mod_small by lia. lia.
  - destruct (Z.eqb_spec selected (n - 1)) as [->|].
    + replace (n - 1 + 1 - 0) with n by lia. apply Z_mod_same_full.
    + rewrite Z.mod_small by lia. lia.
  - destruct (Z.eqb_spec selected 0) as [->|].
    + replace (0 + 0 - 1) with (n - 1 + -1 * n) by lia.
      rewrite Z_mod_plus_full. apply Z.mod_small. lia.
    + rewrite Z.mod_small by lia. lia.
  - rewrite Z.mod_small by lia. lia.
Qed.

Lemma menu_selection_wraps_witness :
  exists selected',
    choix true false 3 4 = Some selected' /\
    choix2 true false 3 4 = Some selected' /\
    0 <= selected' < 4 /\
    selected' = (if true && negb false then
                   if 3 =? 4 - 1 then 0 else 3 + 1
                 else if false && negb true then
                   if 3 =? 0 then 4 - 1 else 3 - 1
                 else 3).
Proof. apply (menu_selection_wraps true false 3 4); lia. Defined.

Lemma presses_forward (n : Z) (k : nat) (selected : Z) :
  0 < n -> 0 <= selected < n ->
  presses (fun s => choix true false s n) k selected = Some ((selected + Z.of_nat k) mod n).
Proof.
  intros Hn. revert selected. induction k as [|k IH]; intros selected Hsel.
  - simpl. rewrite Z.add_0_r, Z.mod_small by lia. reflexivity.
  - cbn [presses]. rewrite choix_mod by lia.
    rewrite IH by (apply Z.mod_pos_bound; lia).
    rewrite Zplus_mod_idemp_l. f_equal. f_equal. lia.
Qed.

Lemma presses_backward (n : Z) (k : nat) (selected : Z) :
  0 < n -> 0 <= selected < n ->
  presses (fun s => choix false true s n) k selected = Some ((selected - Z.of_nat k) mod n).
Proof.
  intros Hn. revert selected. induction k as [|k IH]; intros selected Hsel.
  - simpl. rewrite Z.sub_0_r, Z.mod_small by lia. reflexivity.
  - cbn [presses]. rewrite choix_mod by lia.
    rewrite IH by (apply Z.mod_pos_bound; lia).
    rewrite Zminus_mod_idemp_l. f_equal. f_equal. lia.
Qed.

(** X11: with a selection in range the two keys of [choix] (and of
    [choix2], which has the same body) undo each other over two frames, and
    pressing one key in as many successive frames as there are buttons brings
    the selection back to where it was. *)
Theorem menu_keys_cycle (selected n : Z) :
  0 < n -> 0 <= selected < n ->
  presses (fun s => choix true false s n) 1 selected
    ≫= presses (fun s => choix false true s n) 1 = Some selected /\
  presses (fun s => choix false true s n) 1 selected
    ≫= presses (fun s => choix true false s n) 1 = Some selected /\
  presses (fun s => choix true false s n) (Z.to_nat n) selected = Some selected /\
  presses (fun s => choix false true s n) (Z.to_nat n) selected = Some selected /\
  (forall forward backward s, choix2 forward backward s n = choix forward backward s n).
Proof.
  intros Hn Hsel.
  rewrite !presses_forward, !presses_backward by lia.
  pose proof (Z.mod_pos_bound (selected + Z.of_nat 1) n Hn).
  pose proof (Z.mod_pos_bound (selected - Z.of_nat 1) n Hn).
  split; [|split; [|split; [|split]]].
  - cbn [mbind option_bind]. rewrite presses_backward by lia.
    rewrite Zminus_mod_idemp_l. f_equal.
    replace (selected + Z.of_nat 1 - Z.of_nat 1) with selected by lia.
    apply Z.mod_small. lia.
  - cbn [mbind option_bind]. rewrite presses_forward by lia.
    rewrite Zplus_mod_idemp_l. f_equal.
    replace (selected - Z.of_nat 1 + Z.of_nat 1) with selected by lia.
    apply Z.mod_small. lia.
  - f_equal. replace (selected + Z.of_nat (Z.to_nat n)) with (selected + 1 * n) by lia.
    rewrite Z_mod_plus_full. apply Z.mod_small. lia.
  - f_equal. replace (selected - Z.of_nat (Z.to_nat n)) with (selected + -1 * n) by lia.
    rewrite Z_mod_plus_full. apply Z.mod_small. lia.
  - intros. apply choix2_choix.
Qed.

Lemma menu_keys_cycle_witness :
  presses (fun s => choix true false s 4) 1 3
    ≫= presses (fun s => choix false true s 4) 1 = Some 3 /\
  presses (fun s => choix false true s 4) 1 3
    ≫= presses (fun s => choix true false s 4) 1 = Some 3 /\
  presses (fun s => choix true false s 4) (Z.to_nat 4) 3 = Some 3 /\
  presses (fun s => choix false true s 4) (Z.to_nat 4) 3 = Some 3 /\
  (forall forward backward s, choix2 forward backward s 4 = choix forward backward s 4).
Proof. apply (menu_keys_cycle 3 4); lia. Defined.

(** * The game loop *)

Lemma Maze_new_Err (w h size : Z) (r : Rng) (e : error) :
  Maze.new w h size r = Err e ->
  (w < 2 \/ h < 2) /\ (e = OutOfBounds \/ e = BadArrayNewLength).
Proof.
  intros Hnew.
  destruct (Z_lt_le_dec w 2) as [Hw|Hw]; [|destruct (Z_lt_le_dec h 2) as [Hh|Hh]].
  3: { destruct (Maze_new_runs w h size r Hw Hh) as (g' & r' & g'' & _ & _ & _ & _ & Hok).
       congruence. }
  all: split; [lia|].
  all: revert Hnew; unfold Maze.new, Maze.allocate, new_array.
  all: destruct (Z.ltb_spec h 0); [intros [= <-]; auto|]; cbn [bind].
  all: destruct (Z.ltb_spec 0 h); [destruct (Z.ltb_spec w 0); [intros [= <-]; auto|]|].
  all: cbn [bind]; unfold Maze.generateMaze; cbn [Maze.generateMazeRecursive fst].
  all: match goal with
       | |- context [Maze.update ?f ?g 1 1] =>
           rewrite (update_outside f w h g 1 1); [intros [= <-]; auto| |unfold inside; simpl; lia]
       end.
  all: try (apply fresh_shape; lia).
  all: replace h with 0 by lia; split; [reflexivity | constructor].
Qed.

Section GameLoop.

Context {T : Type} `{Clock T} {F : Type} `{Floats F}.
Variables (GetScreenWidth GetScreenHeight : Z) (textures : Main.Textures) (cooldown zero : T).

Lemma moves_app (a b : list (T * Z * Z)) (m : Maze.t) (p : Player.t T) :
  Player.moves (a ++ b) m p = bind (Player.moves a m p) (Player.moves b m).
Proof.
  revert p. induction a as [|[[now dx] dy] a IH]; intros p; [reflexivity|]. simpl.
  destruct (Player.move now dx dy m p) as [p1|e]; [apply IH | reflexivity].
Qed.

Lemma move_total (m : Maze.t) (p : Player.t T) (now : T) (dx dy : Z) :
  shape (Maze.width m) (Maze.height m) (Maze.grid m) ->
  exists p', Player.move now dx dy m p = Ok p'.
Proof.
  intros Hs. unfold Player.move.
  destruct (tge (tsub now (Player.lastMoveTime p)) (Player.moveCooldown p)); [|eauto].
  rewrite isWall_wallAt by exact Hs. cbn [bind]. eauto.
Qed.

Lemma move_on_spec (i : Main.Frame T) (key : Raylib.KeyboardKey) (dx dy : Z)
    (s : Main.Locals T) (mo : Main.MazeObject) (p : Player.t T) :
  Main.maze s = Main.object mo -> Main.player s = Main.object p ->
  shape (Maze.width (Main.fields mo)) (Maze.height (Main.fields mo))
        (Maze.grid (Main.fields mo)) ->
  exists p',
    Player.moves (if Main.IsKeyDown i key then [(Main.GetTime i key, dx, dy)] else [])
                 (Main.fields mo) p = Ok p' /\
    Main.move_on i key dx dy s = Main.Done (Main.set_player (Main.object p') s).
Proof.
  intros Hm Hp Hs. unfold Main.move_on.
  destruct (Main.IsKeyDown i key).
  - destruct (move_total (Main.fields mo) p (Main.GetTime i key) dx dy Hs) as [p' Hp'].
    exists p'. simpl. rewrite Hp', Hp, Hm. simpl. rewrite Hp'. auto.
  - exists p. split; [reflexivity|]. destruct s; simpl in *. subst. reflexivity.
Qed.

(** One frame of a running game: the moves of the keys that are down, then
    the test for the exit. *)
Lemma game_spec (i : Main.Frame T) (s : Main.Locals T) (r : Rng)
    (mo : Main.MazeObject) (p : Player.t T) :
  Main.maze s = Main.object mo -> Main.player s = Main.object p ->
  shape (Maze.width (Main.fields mo)) (Maze.height (Main.fields mo))
        (Maze.grid (Main.fields mo)) ->
  exists p',
    Player.moves (Main.frame_moves i) (Main.fields mo) p = Ok p' /\
    Main.game textures i s r =
    if Maze.isExit (Main.fields mo) (Player.getX p') (Player.getY p')
    then Main.Fault Main.UseAfterDelete
    else Main.Done (Main.Continue, Main.set_player (Main.object p') s, r).
Proof.
  intros Hm Hp Hs. unfold Main.game, Main.frame_moves.
  destruct (move_on_spec i Raylib.KEY_UP 0 (-1) s mo p Hm Hp Hs) as (p1 & Hmv1 & ->).
  cbn [Main.and_then].
  destruct (move_on_spec i Raylib.KEY_DOWN 0 1 (Main.set_player (Main.object p1) s) mo p1
              Hm eq_refl Hs) as (p2 & Hmv2 & ->).
  cbn [Main.and_then].
  destruct (move_on_spec i Raylib.KEY_LEFT (-1) 0
              (Main.set_player (Main.object p2) (Main.set_player (Main.object p1) s)) mo p2
              Hm eq_refl Hs) as (p3 & Hmv3 & ->).
  cbn [Main.and_then].
  destruct (move_on_spec i Raylib.KEY_RIGHT 1 0
              (Main.set_player (Main.object p3)
                 (Main.set_player (Main.object p2) (Main.set_player (Main.object p1) s)))
              mo p3 Hm eq_refl Hs) as (p4 & Hmv4 & ->).
  cbn [Main.and_then].
  exists p4. split.
  - rewrite moves_app, Hmv1. cbn [bind]. rewrite moves_app, Hmv2. cbn [bind].
    rewrite moves_app, Hmv3. cbn [bind]. exact Hmv4.
  - simpl. rewrite Hm. simpl.
    destruct (Maze.isExit (Main.fields mo) (Player.getX p4) (Player.getY p4)).
    + reflexivity.
    + simpl. rewrite Hm. simpl. rewrite draw_runs by exact Hs. reflexivity.
Qed.

(** X12: in a frame of a running game the player makes the moves of the
    keys that are down, in the order up, down, left, right. If that leaves
    the player on the exit, the frame deletes the maze and the player and then
    draws through the deleted maze pointer; otherwise the frame changes
    nothing but the player. *)
Theorem finished_level_uses_deleted_maze (i : Main.Frame T) (s : Main.Locals T) (r : Rng)
    (mo : Main.MazeObject) (p : Player.t T) :
  Main.gameStarted s = true ->
  Main.maze s = Main.object mo -> Main.player s = Main.object p ->
  constructed (Main.fields mo) ->
  exists p',
    Player.moves (Main.frame_moves i) (Main.fields mo) p = Ok p' /\
    Main.frame GetScreenWidth GetScreenHeight textures cooldown zero i s r =
    if Maze.isExit (Main.fields mo) (Player.getX p') (Player.getY p')
    then Main.Fault Main.UseAfterDelete
    else Main.Done (Main.Continue, Main.set_player (Main.object p') s, r).
Proof.
  intros Hstarted Hm Hp (_ & _ & Hs & _)%constructed_facts.
  unfold Main.frame. rewrite Hstarted. simpl. apply game_spec; assumption.
Qed.

End GameLoop.

Section GameRuns.

Context {T : Type} `{Clock T} {F : Type} `{Floats F}.
Variables (GetScreenWidth GetScreenHeight : Z) (textures : Main.Textures) (cooldown zero : T).

Lemma menu_sane (i : Main.Frame T) (s : Main.Locals T) (r : Rng) :
  sane s -> Main.gameStarted s = false ->
  match Main.menu GetScreenWidth GetScreenHeight textures cooldown zero i s r with
  | Main.Done (_, s', _) => sane s'
  | Main.Fault f => expected f
  end.
Proof.
  intros (Hb & Hc & Hd & Hptr) Hmenu. rewrite Hmenu in Hptr. destruct Hptr as [Hm Hp].
  unfold Main.menu. destruct (Main.showCharacterSelection s); cbn [negb].
  - rewrite choix2_choix, choix_mod by lia. cbn [Main.of_option Main.and_then].
    set (sel := (_ mod 3)).
    assert (0 <= sel < 3) as Hsel by (apply Z.mod_pos_bound; lia).
    destruct (Main.IsKeyPressed i Raylib.KEY_ENTER).
    + set (cs := if Main.difficulty s =? 1 then 50 else if Main.difficulty s =? 2 then 40 else 30).
      destruct (Maze.new _ _ cs r) as [[m r']|e] eqn:Hnew; cbn [Main.of_result Main.and_then].
      * unfold sane. simpl. split; [exact Hb|]. split; [exact Hsel|]. split; [exact Hd|].
        eexists _, _. split; [reflexivity|]. split; [reflexivity|].
        assert (constructed m) as Hcm by (eexists _, _, _, _, _; exact Hnew).
        pose proof Hcm as (_ & _ & Hs & _ & _ & Hstart & _)%constructed_facts.
        split; [exact Hcm|]. simpl.
        assert (Maze.cellSize m = cs) as Hcs.
        { destruct (Maze_new_dims _ _ _ _ _ _ Hnew) as [Hw Hh].
          destruct (Maze_new_runs _ _ cs r Hw Hh) as (g' & r1 & g'' & _ & _ & _ & _ & Hok).
          rewrite Hok in Hnew. injection Hnew as <- _. reflexivity. }
        split; [exact Hcs|]. split.
        -- subst cs. destruct (Main.difficulty s =? 1); [left|].
           destruct (Main.difficulty s =? 2); [right; left | right; right; left].
        -- rewrite isWall_wallAt by exact Hs. f_equal. exact Hstart.
      * apply Maze_new_Err in Hnew as [_ [-> | ->]]; unfold expected; auto.
    + unfold sane. simpl. rewrite Hmenu. auto.
  - rewrite choix_mod by lia. cbn [Main.of_option Main.and_then].
    set (sel := (_ mod 4)).
    assert (0 <= sel < 4) as Hsel by (apply Z.mod_pos_bound; lia).
    destruct (Main.IsKeyPressed i Raylib.KEY_ENTER).
    + destruct (Z.eqb_spec sel 3).
      * unfold sane. simpl. rewrite Hmenu. auto.
      * unfold sane. simpl. rewrite Hmenu. repeat split; auto; lia.
    + unfold sane. simpl. rewrite Hmenu. auto.
Qed.

Lemma frame_sane (i : Main.Frame T) (s : Main.Locals T) (r : Rng) :
  sane s ->
  match Main.frame GetScreenWidth GetScreenHeight textures cooldown zero i s r with
  | Main.Done (_, s', _) => sane s'
  | Main.Fault f => expected f
  end.
Proof.
  intros Hsane. unfold Main.frame.
  destruct (Main.gameStarted s) eqn:Hstarted; cbn [negb]; [|apply menu_sane; assumption].
  pose proof Hsane as (Hb & Hc & Hd & Hptr). rewrite Hstarted in Hptr.
  destruct Hptr as (mo & p & Hm & Hp & Hcm & Hsize & Hsizes & Hopen).
  pose proof Hcm as (_ & _ & Hs & _)%constructed_facts.
  destruct (game_spec textures i s r mo p Hm Hp Hs) as (p' & Hmoves & ->).
  destruct (Maze.isExit (Main.fields mo) (Player.getX p') (Player.getY p')).
  - left. reflexivity.
  - unfold sane. simpl. rewrite Hstarted.
    split; [exact Hb|]. split; [exact Hc|]. split; [exact Hd|].
    exists mo, p'. split; [exact Hm|]. split; [reflexivity|]. split; [exact Hcm|].
    rewrite (moves_cellSize _ _ _ _ Hmoves).
    split; [exact Hsize|]. split; [exact Hsizes|].
    exact (moves_keep_passage _ _ _ _ Hs Hopen Hmoves).
Qed.

Lemma loop_sane (frames : list (Main.Frame T)) (s : Main.Locals T) (r : Rng) :
  sane s ->
  match Main.loop GetScreenWidth GetScreenHeight textures cooldown zero frames s r with
  | Main.Done (_, s', _) => sane s'
  | Main.Fault f => expected f
  end.
Proof.
  revert s r. induction frames as [|i rest IH]; intros s r Hsane; simpl; [exact Hsane|].
  destruct (Main.WindowShouldClose i); [exact Hsane|].
  pose proof (frame_sane i s r Hsane) as Hframe.
  destruct (Main.frame _ _ _ _ _ i s r) as [[[c s'] r']|f]; cbn [Main.and_then];
    [|exact Hframe].
  destruct c; [apply IH, Hframe | exact Hframe].
Qed.

Lemma initial_sane : sane (Main.initial (T := T)).
Proof. unfold sane. simpl. repeat split; lia. Qed.

(** X13: whatever the keys, [main] can stop early in two ways only: the
    maze constructor stops on an access outside its grid or on a negative
    array length, or a finished level draws the deleted maze. As long as it
    runs, the menu
    selections stay in range, and either no game has been started and no
    object exists, or a game is running on a constructed maze with the player
    on a passage: the menu is never seen again once a game has started. When
    the loop is left, the final [delete]s destroy what is alive, and nothing
    twice. *)
Theorem main_outcomes (frames : list (Main.Frame T)) (r : Rng) :
  match Main.main GetScreenWidth GetScreenHeight textures cooldown zero frames r with
  | Main.Fault f =>
      f = Main.UseAfterDelete \/ f = Main.Failed OutOfBounds \/
      f = Main.Failed BadArrayNewLength
  | Main.Done (Main.Continue, s, _) => sane s
  | Main.Done (Main.Break, s, _) =>
      0 <= Main.selectedButton s < 4 /\ 0 <= Main.selectedCharacter s < 3 /\
      1 <= Main.difficulty s <= 3 /\
      if Main.gameStarted s
      then Main.maze s = Main.deleted /\ Main.player s = Main.deleted
      else Main.maze s = Main.nullptr /\ Main.player s = Main.nullptr
  end.
Proof.
  unfold Main.main.
  pose proof (loop_sane frames Main.initial r initial_sane) as Hloop.
  destruct (Main.loop _ _ _ _ _ frames Main.initial r) as [[[c s] r']|f];
    cbn [Main.and_then]; [|exact Hloop].
  destruct c; [exact Hloop|].
  destruct Hloop as (Hb & Hc & Hd & Hptr). unfold Main.cleanup.
  destruct (Main.gameStarted s) eqn:Hstarted.
  - destruct Hptr as (mo & p & Hm & Hp & _). rewrite Hm, Hp. simpl.
    rewrite ?Hstarted. auto.
  - destruct Hptr as [Hm Hp]. rewrite Hm, Hp. simpl. rewrite ?Hstarted. auto.
Qed.

End GameRuns.

Lemma finished_level_uses_deleted_maze_witness :
  Player.moves (Main.frame_moves demo_frame) demo_maze (Player.mk 2 3 50 200 0)
  = Ok (Player.mk 3 3 50 200 300) /\
  Main.frame (F := Q) 250 250 demo_textures 200 0 demo_frame demo_game demo_rng
  = Main.Fault Main.UseAfterDelete.
Proof.
  destruct (finished_level_uses_deleted_maze (F := Q) 250 250 demo_textures 200 0
              demo_frame demo_game demo_rng
              (Main.mkMaze demo_maze Raylib.LIGHTGRAY demo_texture) (Player.mk 2 3 50 200 0)
              eq_refl eq_refl eq_refl constructed_demo) as (p' & Hmoves & Hframe).
  assert (Player.moves (Main.frame_moves demo_frame) demo_maze (Player.mk 2 3 50 200 0)
          = Ok (Player.mk 3 3 50 200 300)) as Hrun by reflexivity.
  split; [exact Hrun|].
  pose proof (eq_trans (eq_sym Hmoves) Hrun) as Heq. injection Heq as ->. exact Hframe.
Defined.

(** * Calling the generator again *)

Lemma constructed_visited (m : Maze.t) (c : Pos) :
  constructed m -> sublattice c -> inside (Maze.width m) (Maze.height m) c ->
  visitedAt (Maze.grid m) c = true.
Proof.
  intros (w & h & size & r & r' & Hnew) Hsub Hin.
  destruct (Maze_new_dims _ _ _ _ _ _ Hnew) as [Hw Hh].
  destruct (Maze_new_runs w h size r Hw Hh) as (g' & r1 & g'' & _ & _ & Hall & Hg'' & Hnew').
  rewrite Hnew' in Hnew. injection Hnew as <- <-. simpl in *.
  destruct (carve_flags _ _ _ _ Hg'') as (_ & Hv & _). rewrite Hv. apply Hall; assumption.
Qed.

Lemma store_same {A : Type} (a : list A) (i : Z) (v : A) :
  index a i = Ok v -> store a i v = Ok a.
Proof.
  intros Hv. pose proof (index_range _ _ _ Hv) as Hi.
  apply index_Ok in Hv as [_ Hv]. apply store_Ok. split; [exact Hi|].
  symmetry. apply list_insert_id, Hv.
Qed.

(** Writing to a cell the value its field already has changes nothing. *)
Lemma update_same (f : Cell.t -> Cell.t) (g : Grid) (x y : Z) (v : Cell.t) :
  Maze.cell g x y = Ok v -> f v = v -> Maze.update f g x y = Ok g.
Proof.
  intros (row & Hrow & Hv)%cell_Ok Hf. unfold Maze.update.
  rewrite Hrow. cbn [bind]. rewrite Hv. cbn [bind]. rewrite Hf.
  rewrite (store_same _ _ _ Hv). cbn [bind]. apply store_same, Hrow.
Qed.

(** The loop carves nothing when every neighbour two steps away is outside
    the grid or visited. *)
Lemma explore_idle (w h : Z) (recurse : Z -> Z -> Grid * Rng -> result (Grid * Rng))
    (x y : Z) (dirs : list Dir) (g : Grid) (r : Rng) :
  shape w h g ->
  (forall d, d ∈ dirs -> inside w h (step (x, y) d 2) ->
             visitedAt g (step (x, y) d 2) = true) ->
  Maze.explore w h recurse x y dirs (g, r) = Ok (g, r).
Proof.
  intros Hs. induction dirs as [|[dx dy] rest IH]; intros Hdone; [reflexivity|]. simpl.
  assert (Hrest : Maze.explore w h recurse x y rest (g, r) = Ok (g, r)).
  { apply IH. intros d Hd. apply Hdone. right. exact Hd. }
  destruct (Maze.isInsideGrid w h (x + dx * 2) (y + dy * 2)) eqn:Hn; [|exact Hrest].
  apply isInsideGrid_spec in Hn.
  pose proof (Hdone (dx, dy) ltac:(left) Hn) as Hvis.
  unfold visitedAt, step in Hvis. simpl in Hvis.
  destruct (Maze.cell g (x + dx * 2) (y + dy * 2)) as [v|e]; [|discriminate].
  simpl. rewrite Hvis. exact Hrest.
Qed.

(** X14: the public [generateMaze] does not generate a second maze. Called
    on a constructed maze it finds every cell around the start visited, leaves
    the grid as it is, and only draws four random numbers for its one
    shuffle. *)
Theorem regenerate_changes_nothing (m : Maze.t) (r : Rng) :
  constructed m ->
  exists r', Maze.generateMaze (Maze.width m) (Maze.height m) (Maze.grid m, r)
             = Ok (Maze.grid m, r') /\
             position r' = (position r + 4)%nat /\ source r' = source r.
Proof.
  intros Hc.
  pose proof Hc as (Hw & Hh & Hs & _ & _ & Hstart & _)%constructed_facts.
  assert (visitedAt (Maze.grid m) start = true) as Hvis.
  { apply constructed_visited; [exact Hc | split; exists 0; reflexivity|].
    unfold inside. simpl. lia. }
  unfold visitedAt, passage, wallAt, start in Hvis, Hstart. simpl in Hvis, Hstart.
  destruct (Maze.cell (Maze.grid m) 1 1) as [v|e] eqn:Hv; [|discriminate].
  destruct (shuffle_directions r) as (dirs & r' & Hsh & Hperm).
  exists r'. destruct (shuffle_draws _ _ _ _ _ _ Hsh) as [Hpos Hsrc].
  split; [|split; [exact Hpos | exact Hsrc]].
  unfold Maze.generateMaze. cbn [Maze.generateMazeRecursive fst snd].
  rewrite (update_same _ _ _ _ v Hv) by (destruct v; simpl in *; subst; reflexivity). cbn [bind].
  rewrite (update_same _ _ _ _ v Hv) by (destruct v; simpl in *; subst; reflexivity). cbn [bind].
  rewrite Hsh. cbn [bind].
  apply (explore_idle _ _ _ _ _ _ _ _ Hs).
  intros d Hd Hin. apply constructed_visited; [exact Hc| |exact Hin].
  apply (sublattice_far (1, 1)); [split; exists 0; reflexivity|].
  unfold unit_dir. rewrite <- Hperm. exact Hd.
Qed.

Lemma regenerate_changes_nothing_witness :
  exists r', Maze.generateMaze (Maze.width demo_maze) (Maze.height demo_maze)
               (Maze.grid demo_maze, demo_rng)
             = Ok (Maze.grid demo_maze, r') /\
             position r' = (position demo_rng + 4)%nat /\ source r' = source demo_rng.
Proof. apply (regenerate_changes_nothing demo_maze demo_rng constructed_demo). Defined.

(** * Attempts within one cooldown *)

Section Bursts.

Context {T : Type} `{Clock T}.

(** X15: of a run of move attempts, the first made once the cooldown has
    elapsed decides alone when all the others come within the cooldown after
    it: they change nothing, whether the first one moved the player or bumped
    into a wall. *)
Theorem first_attempt_decides (p : Player.t T) (now : T) (dx dy : Z)
    (rest : list (T * Z * Z)) (m : Maze.t) :
  tge (tsub now (Player.lastMoveTime p)) (Player.moveCooldown p) = true ->
  Forall (fun att => tlt (tsub (fst (fst att)) now) (Player.moveCooldown p) = true) rest ->
  Player.moves ((now, dx, dy) :: rest) m p = Player.move now dx dy m p /\
  forall p', Player.move now dx dy m p = Ok p' ->
             Player.lastMoveTime p' = now /\
             (Player.x p', Player.y p') ∈ [(Player.x p, Player.y p);
                                           (Player.x p + dx, Player.y p + dy)].
Proof.
  intros Hge Hrest.
  assert (Hmove : forall p', Player.move now dx dy m p = Ok p' ->
            Player.lastMoveTime p' = now /\ Player.moveCooldown p' = Player.moveCooldown p /\
            (Player.x p', Player.y p') ∈ [(Player.x p, Player.y p);
                                          (Player.x p + dx, Player.y p + dy)]).
  { intros p'. unfold Player.move. rewrite Hge.
    intros (wall & _ & [= <-])%bind_Ok. destruct wall; simpl.
    - split; [reflexivity|]. split; [reflexivity|]. left.
    - split; [reflexivity|]. split; [reflexivity|]. right. left. }
  split; [|intros p' Hp'; destruct (Hmove p' Hp') as (? & _ & ?); auto].
  simpl. destruct (Player.move now dx dy m p) as [p1|e]; [|reflexivity]. cbn [bind].
  destruct (Hmove p1 eq_refl) as (Hlast & Hcd & _).
  clear Hmove Hge. induction Hrest as [|[[t ex] ey] rest Hlt Hrest IH]; [reflexivity|].
  simpl in *. rewrite move_blocked; [exact IH|].
  rewrite Hlast, Hcd. apply tlt_tge, Hlt.
Qed.

End Bursts.

Lemma first_attempt_decides_witness :
  let p := Player.new 1 1 50 200 0 in
  Player.moves [(300, 0, 1); (310, 1, 0); (320, 0, 1)] demo_maze p
  = Player.move 300 0 1 demo_maze p /\
  forall p', Player.move 300 0 1 demo_maze p = Ok p' ->
             Player.lastMoveTime p' = 300 /\
             (Player.x p', Player.y p') ∈ [(Player.x p, Player.y p);
                                           (Player.x p + 0, Player.y p + 1)].
Proof.
  intros p.
  apply (first_attempt_decides p 300 0 1 [(310, 1, 0); (320, 0, 1)] demo_maze).
  - reflexivity.
  - repeat constructor.
Defined.
